(** * Function minimisation with torchbearer: the [basic_opt] notebook

    A shallow embedding of [docs/_static/notebooks/basic_opt.ipynb] and the
    properties its specification states about it.

    Modelling choices, fixed here once:
    - a one-dimensional tensor is an object of a heap of storages, so that
      in-place updates and aliasing ([torch.nn.Parameter(x)] shares the
      storage of [x]) are visible;
    - zero-dimensional tensors ([self.pars[0]], the value of [torch.sum])
      are plain numbers;
    - device placement ([.to('cuda')]) is the identity;
    - the arithmetic is modelled twice. The program with its heap, its state
      dictionary and its training loop runs over the real numbers ([R]): the
      specification's update rule is real-valued, and what is proved there
      about [Net.f] (which objects it touches, when it raises) does not
      depend on the numbers. The values [Net.f] returns are those of module
      [F32], where every element is an IEEE 754 binary32 value and every
      subtraction, product and sum is rounded, as on a [torch.float32]
      tensor. *)

From Stdlib Require Import Reals Lra Psatz.
From Stdlib Require Import Floats.SpecFloat.
From stdpp Require Import base option list gmap strings.

Local Open Scope R_scope.

(** ** Errors and results *)

Inductive error : Type :=
  | IndexError        (* index out of range for a tensor dimension *)
  | DanglingReference (* no such object: unreachable from Python code *)
  | ImportError.      (* any exception raised by an [import] *)

Inductive result (A : Type) : Type :=
  | Ok (a : A)
  | Raise (e : error).
Arguments Ok {A} a.
Arguments Raise {A} e.

(** ** Program state *)

Definition loc := nat.

(** A value of the trial's state dictionary: a view on a tensor storage
    together with its shape. *)
Record view : Type := View { storage : loc; shape : list nat }.

(** [heap]: the tensor storages, addressed by position;
    [tstate]: the mutable state dictionary torchbearer hands to [forward];
    [stdout]: the tensors printed so far, oldest first. *)
Record world : Type := World {
  heap : list (list R);
  tstate : gmap string view;
  stdout : list (list R)
}.

Definition empty_world : world := World [] ∅ [].

Definition set_heap (h : list (list R)) (w : world) : world :=
  World h (tstate w) (stdout w).
Definition set_tstate (s : gmap string view) (w : world) : world :=
  World (heap w) s (stdout w).
Definition set_stdout (o : list (list R)) (w : world) : world :=
  World (heap w) (tstate w) o.

(** ** A state and error monad *)

Definition M (A : Type) : Type := world → result (A * world).

Definition ret {A} (a : A) : M A := λ w, Ok (a, w).
Definition bind {A B} (m : M A) (k : A → M B) : M B :=
  λ w, match m w with
       | Ok (a, w') => k a w'
       | Raise e => Raise e
       end.
Definition raise {A} (e : error) : M A := λ _, Raise e.

#[global] Instance M_ret : MRet M := @ret.
#[global] Instance M_bind : MBind M := λ A B k m, bind m k.

(** [state[key] = v] on the trial's state dictionary. *)
Definition state_setitem (key : string) (v : view) : M unit :=
  λ w, Ok (tt, set_tstate (<[key:=v]> (tstate w)) w).

(** Appending one printed tensor to the output. *)
Definition write_stdout (v : list R) : M unit :=
  λ w, Ok (tt, set_stdout (stdout w ++ [v]) w).

Definition value_of {A} (r : result (A * world)) : result A :=
  match r with
  | Ok (a, _) => Ok a
  | Raise e => Raise e
  end.

(** ** The tensor operations the notebook uses *)

Module torch.

(** [torch.tensor(data)]: a new tensor owning a copy of [data]. *)
Definition tensor (data : list R) : M loc :=
  λ w, Ok (length (heap w), set_heap (heap w ++ [data]) w).

(** The current contents of a tensor. *)
Definition data (t : loc) : M (list R) :=
  λ w, match heap w !! t with
       | Some v => Ok (v, w)
       | None => Raise DanglingReference
       end.

(** In-place replacement of the contents of a tensor. *)
Definition set_data (t : loc) (v : list R) : M unit :=
  λ w, match heap w !! t with
       | Some _ => Ok (tt, set_heap (<[t:=v]> (heap w)) w)
       | None => Raise DanglingReference
       end.

(** [torch.zeros_like(t)]: a new tensor of the shape of [t], all zero. *)
Definition zeros_like (t : loc) : M loc :=
  v ← data t; tensor (replicate (length v) 0).

(** [t[i]] for a non-negative [i]: raises [IndexError] out of range. *)
Definition getitem (t : loc) (i : nat) : M R :=
  v ← data t;
  match v !! i with
  | Some x => ret x
  | None => raise IndexError
  end.

(** [t[i] = x] for a non-negative [i]: raises [IndexError] out of range,
    where the list update alone would silently do nothing. *)
Definition setitem (t : loc) (i : nat) (x : R) : M unit :=
  v ← data t;
  if decide (i < length v)%nat then set_data t (<[i:=x]> v)
  else raise IndexError.

(** [t ** n]: a new tensor, the elementwise power. *)
Definition pow (t : loc) (n : nat) : M loc :=
  v ← data t; tensor (map (λ x, x ^ n) v).

(** [torch.sum(t)]: the sum of all elements. *)
Definition sum (t : loc) : M R :=
  v ← data t; ret (foldr Rplus 0 v).

End torch.

(** ** The model: [class Net(Module)] *)

(** [ESTIMATE = torchbearer.state_key('est')] *)
Definition ESTIMATE : string := "est".

Record Net : Type := { pars : loc }.

(** [Net.__init__]: [torch.nn.Parameter(x)] wraps [x] without copying, so
    [self.pars] is the storage of [x]. *)
Definition Net_init (x : loc) : M Net := ret {| pars := x |}.

(** [Net.f]. *)
Definition f (self : Net) : M R :=
  out ← torch.zeros_like (pars self);
  p0 ← torch.getitem (pars self) 0;
  torch.setitem out 0 (p0 - 5);;
  p1 ← torch.getitem (pars self) 1;
  torch.setitem out 1 p1;;
  p2 ← torch.getitem (pars self) 2;
  torch.setitem out 2 (p2 - 1);;
  sq ← torch.pow out 2;
  torch.sum sq.

(** [Net.forward(self, _, state)]: [detach()] and [unsqueeze(1)] give a view
    of shape (n, 1) on the storage of the parameters. *)
Definition forward (self : Net) : M R :=
  v ← torch.data (pars self);
  state_setitem ESTIMATE (View (pars self) [length v; 1%nat]);;
  f self.

(** [def loss(y_pred, y_true): return y_pred] *)
Definition loss {A B : Type} (y_pred : A) (y_true : B) : A := y_pred.

(** The objective as a function of the parameter vector: the value of
    [Net(torch.tensor(x)).f()] in a fresh program state. *)
Definition objective (x : list R) : result R :=
  value_of ((p ← torch.tensor x; model ← Net_init p; f model) empty_world).

(** [model.parameters()]: the registered parameters, here [self.pars] only. *)
Definition parameters (self : Net) : list loc := [pars self].

(** ** The optimiser: [torch.optim.SGD(model.parameters(), lr=...)] *)

Record SGD : Type := { params : list loc; lr : R }.

(** Modelled from the spec: the update of [torch.optim.SGD], which the
    notebook takes from PyTorch: "applies [x ← x - lr * grad]". With the
    optimiser's defaults (no momentum, no dampening, no weight decay) this
    is [p.add_(p.grad, alpha=-lr)], in place on the parameter's storage. *)
Definition SGD_update (rate : R) (p : loc) (grad : list R) : M unit :=
  v ← torch.data p;
  torch.set_data p (zip_with (λ pi gi, pi - rate * gi) v grad).

(** ** The gradient of the objective *)

(** Modelled from the spec: what autograd, which is PyTorch's, leaves in
    [self.pars.grad] after [backward()]: "the gradient of the objective at
    the current parameter vector", in closed form. Elements past the third do
    not occur in [f]. That this is the gradient of [objective], derivative by
    derivative, is [grad_f_is_gradient] below. *)
Definition grad_f (x : list R) : list R :=
  imap (λ i xi, match i with
                | 0%nat => 2 * (xi - 5)
                | 1%nat => 2 * xi
                | 2%nat => 2 * (xi - 1)
                | _ => 0
                end) x.

(** Modelled from the spec: one gradient-descent update, [x - lr * grad], as
    a function on parameter values. *)
Definition gd_update (rate : R) (x : list R) : list R :=
  zip_with (λ xi gi, xi - rate * gi) x (grad_f x).

(** ** The training loop: [torchbearer.Trial] *)

(** Modelled from the spec: [torchbearer.Trial(model, optim, loss, metrics)],
    whose code is not part of the notebook. The criterion is the notebook's
    [loss]; the metrics only read the state and belong to the metric logging
    the spec leaves out. *)
Record Trial : Type := {
  model : Net;
  optimizer : SGD;
  train_steps : nat
}.

(** Modelled from the spec: [Trial.for_train_steps(steps)] sets "the
    configured number of steps". *)
Definition for_train_steps (steps : nat) (t : Trial) : Trial :=
  {| model := model t; optimizer := optimizer t; train_steps := steps |}.

(** Modelled from the spec: the body of one training step of
    [torchbearer.Trial]. The spec has it compute "the gradient of the
    objective at the current parameter vector" and apply [x ← x - lr * grad].
    The objective is evaluated through the model's [forward] and the
    notebook's [loss], as the notebook sets them up; no data is loaded, so
    the label is [tt]. As [loss] returns the prediction, the loss is the
    objective, and its gradient is [grad_f]. *)
Definition train_step (t : Trial) : M unit :=
  y_pred ← forward (model t);
  let _loss := loss y_pred tt in
  x ← torch.data (pars (model t));
  let grad := grad_f x in
  foldr (λ p k, SGD_update (lr (optimizer t)) p grad;; k) (ret tt)
        (params (optimizer t)).

(** Modelled from the spec: the loop of [Trial.run], "a single sequential
    loop of a fixed number of update steps". *)
Fixpoint run_steps (n : nat) (t : Trial) : M unit :=
  match n with
  | O => ret tt
  | S k => train_step t;; run_steps k t
  end.

(** Modelled from the spec: [Trial.run()]. *)
Definition run (t : Trial) : M unit := run_steps (train_steps t) t.

(** ** The notebook's cells, in order *)

(** [print(t.data)]: the current contents of the tensor go to the output. *)
Definition print (t : loc) : M unit :=
  v ← torch.data t; write_stdout v.

Definition p_init : list R := [2; 1; 10].
Definition training_steps : nat := N.to_nat 50000.
Definition learning_rate : R := 1 / 10000.

(** The code cells after the imports; [.to('cuda')] moves the model and
    changes no value. *)
Definition notebook : M unit :=
  p ← torch.tensor p_init;
  net ← Net_init p;
  let optim := {| params := parameters net; lr := learning_rate |} in
  let tbtrial := {| model := net; optimizer := optim; train_steps := 0 |} in
  let tbtrial := for_train_steps training_steps tbtrial in
  run tbtrial;;
  match parameters net !! 0%nat with
  | Some p0 => print p0
  | None => raise IndexError
  end.

(** ** The import cell *)

Module Imports.

Inductive event : Type :=
  | Import (package : string)
  | PipInstall (package : string).

Section Environment.

(** The Python environment is a parameter: [importable e pkg] tells whether
    [import pkg] succeeds in [e] (it raises otherwise), and [pip e pkg] is
    the environment after [!pip install pkg]. The shell escape itself
    never raises, whatever pip does. *)
Variable env : Type.
Variable importable : env → string → bool.
Variable pip : env → string → env.

(** A state is the environment and the trace of what was attempted. *)
Definition state : Type := env * list event.

Definition import (pkg : string) (s : state) : result unit * state :=
  let s' := (s.1, s.2 ++ [Import pkg]) in
  if importable s.1 pkg then (Ok tt, s') else (Raise ImportError, s').

Definition pip_install (pkg : string) (s : state) : state :=
  (pip s.1 pkg, s.2 ++ [PipInstall pkg]).

(** [try: import torchbearer / except: !pip install torchbearer; import torchbearer] *)
Definition fallback (s : state) : result unit * state :=
  match import "torchbearer" s with
  | (Ok _, s1) => (Ok tt, s1)
  | (Raise _, s1) => import "torchbearer" (pip_install "torchbearer" s1)
  end.

(** The whole cell: [import torch], [from torch.nn import Module], then
    the fallback. *)
Definition cell (s : state) : result unit * state :=
  match import "torch" s with
  | (Raise e, s1) => (Raise e, s1)
  | (Ok _, s1) =>
      match import "torch.nn" s1 with
      | (Raise e, s2) => (Raise e, s2)
      | (Ok _, s2) => fallback s2
      end
  end.

End Environment.

Arguments import {env} importable pkg s.
Arguments pip_install {env} pip pkg s.
Arguments fallback {env} importable pip s.
Arguments cell {env} importable pip s.

End Imports.

(** ** [Net.f] on [torch.float32] tensors *)

#[global] Instance result_ret : MRet result := @Ok.
#[global] Instance result_bind : MBind result :=
  λ A B k r, match r with
             | Ok a => k a
             | Raise e => Raise e
             end.

Module F32.

(** IEEE 754 binary32: 24 bits of precision, exponents up to 128; the
    operations are the Standard Library's specification of floating-point
    arithmetic, which rounds to nearest, ties to even. *)
Definition prec : Z := 24.
Definition emax : Z := 128.

Definition add : spec_float → spec_float → spec_float := SFadd prec emax.
Definition sub : spec_float → spec_float → spec_float := SFsub prec emax.
Definition mul : spec_float → spec_float → spec_float := SFmul prec emax.

Definition zero : spec_float := S754_zero false.

(** The binary32 value of an integer, as for the Python literals [5] and [1]. *)
Definition of_Z (z : Z) : spec_float := binary_normalize prec emax z 0 false.

(** A value a binary32 tensor can hold. *)
Definition valid (x : spec_float) : Prop := valid_binary prec emax x = true.

(** The real number a finite value stands for. *)
Definition to_R (x : spec_float) : option R :=
  match x with
  | S754_zero _ => Some 0
  | S754_finite s m e =>
      Some (if (0 <=? e)%Z then IZR (cond_Zopp s (Z.pos m) * 2 ^ e)
            else IZR (cond_Zopp s (Z.pos m)) / IZR (2 ^ (- e)))
  | _ => None
  end.

(** The integer a finite value stands for, when it is one. *)
Definition to_Z (x : spec_float) : option Z :=
  match x with
  | S754_zero _ => Some 0%Z
  | S754_finite s m e =>
      if (0 <=? e)%Z then Some (cond_Zopp s (Z.pos m) * 2 ^ e)%Z
      else if (cond_Zopp s (Z.pos m) mod 2 ^ (- e) =? 0)%Z
           then Some (cond_Zopp s (Z.pos m) / 2 ^ (- e))%Z
           else None
  | _ => None
  end.

(** [x ** n] for a non-negative integer [n]; [x ** 2] is [x * x]. *)
Fixpoint pow_float (x : spec_float) (n : nat) : spec_float :=
  match n with
  | O => of_Z 1
  | 1%nat => x
  | S k => mul x (pow_float x k)
  end.

(** The tensor operations of [Net.f] on the contents of a tensor. [out] is
    local to [f], so its updates are passed along; the effects on the heap
    are those of [f] above. *)
Definition zeros_like (t : list spec_float) : list spec_float :=
  replicate (length t) zero.

Definition getitem (t : list spec_float) (i : nat) : result spec_float :=
  match t !! i with
  | Some x => Ok x
  | None => Raise IndexError
  end.

Definition setitem (t : list spec_float) (i : nat) (x : spec_float)
  : result (list spec_float) :=
  if decide (i < length t)%nat then Ok (<[i:=x]> t) else Raise IndexError.

Definition pow (t : list spec_float) (n : nat) : list spec_float :=
  map (λ x, pow_float x n) t.

(** [torch.sum]: the elements are added one after the other. *)
Definition sum (t : list spec_float) : spec_float := fold_left add t zero.

(** [Net.f], as a function of the contents of [self.pars]. *)
Definition f (pars : list spec_float) : result spec_float :=
  let out := zeros_like pars in
  p0 ← getitem pars 0;
  out ← setitem out 0 (sub p0 (of_Z 5));
  p1 ← getitem pars 1;
  out ← setitem out 1 p1;
  p2 ← getitem pars 2;
  out ← setitem out 2 (sub p2 (of_Z 1));
  Ok (sum (pow out 2)).



(** Whether [f] is exact at the integer vector [(a, b, c)]: the three
    integers are binary32 values and [f] returns the integer
    [(a-5)^2 + b^2 + (c-1)^2]. *)
Definition exact_at (a b c : Z) : bool :=
  match f [of_Z a; of_Z b; of_Z c] with
  | Ok v =>
      bool_decide (to_Z (of_Z a) = Some a) && bool_decide (to_Z (of_Z b) = Some b)
      && bool_decide (to_Z (of_Z c) = Some c)
      && bool_decide (to_Z v = Some ((a - 5) ^ 2 + b ^ 2 + (c - 1) ^ 2)%Z)
  | Raise _ => false
  end.

(** The integers from [-n] to [n]. *)
Definition grid (n : Z) : list Z :=
  map (λ k, (Z.of_nat k - n)%Z) (seq 0 (Z.to_nat (2 * n + 1))).

Definition exact_on_grid (n : Z) : bool :=
  forallb (λ a, forallb (λ b, forallb (λ c, exact_at a b c) (grid n)) (grid n)) (grid n).

End F32.

(** What rounding a positive mantissa of magnitude [D] (number of digits
    plus exponent) to binary32 can give: the sign is kept, the exponent is at
    least [emin = -149], the magnitude does not decrease, and zero only
    comes out when [D] is at most [emin]. *)
Definition rounded (s : bool) (D : Z) (r : spec_float) : Prop :=
  match r with
  | S754_zero s' => s' = s ∧ (D ≤ -149)%Z
  | S754_infinity s' => s' = s
  | S754_nan => False
  | S754_finite s' m e => s' = s ∧ (-149 ≤ e)%Z ∧ (D ≤ Z.pos (digits2_pos m) + e)%Z
  end.

(** Positive values, finite or [+inf]; and values that are not negative:
    NaN, [+0], or positive. *)
Definition positive_value (r : spec_float) : Prop := rounded false (-148) r.
Definition nonneg_or_nan (r : spec_float) : Prop :=
  r = S754_nan ∨ r = F32.zero ∨ positive_value r.


(** ** Vocabulary of the statements *)

(** The objective as a real-valued function (0 where [f] raises). *)
Definition objective_at (x : list R) : R :=
  match objective x with
  | Ok v => v
  | Raise _ => 0
  end.


(** [g] is the gradient of [F] at [x]: its [i]-th element is the derivative of
    [F] along the [i]-th coordinate. *)
Definition is_gradient (F : list R → R) (x g : list R) : Prop :=
  length g = length x ∧
  ∀ (i : nat) (xi gi : R), x !! i = Some xi → g !! i = Some gi →
    derivable_pt_lim (λ h, F (<[i:=h]> x)) xi gi.

(** The heap [h'] extends [h]: every object of [h] is in [h'], unchanged. *)
Definition extends (h h' : list (list R)) : Prop := ∃ new, h' = h ++ new.

(** * Proofs *)

(** ** Running the monad *)

Lemma bind_run {A B} (m : M A) (k : A → M B) (w : world) :
  (m ≫= k) w = match m w with
               | Ok (a, w') => k a w'
               | Raise e => Raise e
               end.
Proof. reflexivity. Qed.

Lemma bind_ok {A B} (m : M A) (k : A → M B) (w w' : world) (a : A) :
  m w = Ok (a, w') → (m ≫= k) w = k a w'.
Proof. intros H. rewrite bind_run, H. reflexivity. Qed.

Lemma bind_raise {A B} (m : M A) (k : A → M B) (w : world) (e : error) :
  m w = Raise e → (m ≫= k) w = Raise e.
Proof. intros H. rewrite bind_run, H. reflexivity. Qed.

Lemma data_run (t : loc) (v : list R) (w : world) :
  heap w !! t = Some v → torch.data t w = Ok (v, w).
Proof. intros H. unfold torch.data. rewrite H. reflexivity. Qed.

Lemma set_data_run (t : loc) (v v' : list R) (w : world) :
  heap w !! t = Some v →
  torch.set_data t v' w = Ok (tt, set_heap (<[t:=v']> (heap w)) w).
Proof. intros H. unfold torch.set_data. rewrite H. reflexivity. Qed.

Lemma zeros_like_run (t : loc) (v : list R) (w : world) :
  heap w !! t = Some v →
  torch.zeros_like t w
  = Ok (length (heap w), set_heap (heap w ++ [replicate (length v) 0]) w).
Proof.
  intros H. unfold torch.zeros_like.
  rewrite (bind_ok _ _ _ _ _ (data_run _ _ _ H)). reflexivity.
Qed.

Lemma getitem_run (t : loc) (i : nat) (v : list R) (x : R) (w : world) :
  heap w !! t = Some v → v !! i = Some x → torch.getitem t i w = Ok (x, w).
Proof.
  intros H Hi. unfold torch.getitem.
  rewrite (bind_ok _ _ _ _ _ (data_run _ _ _ H)), Hi. reflexivity.
Qed.

Lemma setitem_run (t : loc) (i : nat) (x : R) (v : list R) (w : world) :
  heap w !! t = Some v → (i < length v)%nat →
  torch.setitem t i x w = Ok (tt, set_heap (<[t:=<[i:=x]> v]> (heap w)) w).
Proof.
  intros H Hi. unfold torch.setitem.
  rewrite (bind_ok _ _ _ _ _ (data_run _ _ _ H)).
  rewrite decide_True by exact Hi. apply (set_data_run _ v), H.
Qed.

Lemma setitem_out_of_range (t : loc) (i : nat) (x : R) (v : list R) (w : world) :
  heap w !! t = Some v → (length v ≤ i)%nat →
  torch.setitem t i x w = Raise IndexError.
Proof.
  intros H Hi. unfold torch.setitem.
  rewrite (bind_ok _ _ _ _ _ (data_run _ _ _ H)).
  rewrite decide_False by lia. reflexivity.
Qed.

Lemma getitem_out_of_range (t : loc) (i : nat) (v : list R) (w : world) :
  heap w !! t = Some v → v !! i = None → torch.getitem t i w = Raise IndexError.
Proof.
  intros H Hi. unfold torch.getitem.
  rewrite (bind_ok _ _ _ _ _ (data_run _ _ _ H)), Hi. reflexivity.
Qed.

Lemma pow_run (t : loc) (n : nat) (v : list R) (w : world) :
  heap w !! t = Some v →
  torch.pow t n w
  = Ok (length (heap w), set_heap (heap w ++ [map (λ x, x ^ n) v]) w).
Proof.
  intros H. unfold torch.pow.
  rewrite (bind_ok _ _ _ _ _ (data_run _ _ _ H)). reflexivity.
Qed.

Lemma sum_run (t : loc) (v : list R) (w : world) :
  heap w !! t = Some v → torch.sum t w = Ok (foldr Rplus 0 v, w).
Proof.
  intros H. unfold torch.sum.
  rewrite (bind_ok _ _ _ _ _ (data_run _ _ _ H)). reflexivity.
Qed.

(** ** Properties of [Net.f] *)

Lemma insert_new_object {A} (h : list A) (a b : A) :
  <[length h:=b]> (h ++ [a]) = h ++ [b].
Proof.
  rewrite insert_app_r_alt by lia. rewrite Nat.sub_diag. reflexivity.
Qed.

Lemma lookup_new_object {A} (h : list A) (a : A) :
  (h ++ [a]) !! length h = Some a.
Proof. apply list_lookup_middle. reflexivity. Qed.

Lemma lookup_old_object {A} (h new : list A) (t : nat) (a : A) :
  h !! t = Some a → (h ++ new) !! t = Some a.
Proof. intros H. apply lookup_app_l_Some, H. Qed.

(** In any state where the parameters hold at least three elements, [f]
    returns the sum of the squares of [out] and only appends its two
    temporaries, [out] and [out ** 2], to the heap. *)
Lemma f_run (self : Net) (w : world) (x0 x1 x2 : R) (rest : list R) :
  heap w !! pars self = Some (x0 :: x1 :: x2 :: rest) →
  let out := x0 - 5 :: x1 :: x2 - 1 :: replicate (length rest) 0 in
  f self w =
    Ok (foldr Rplus 0 (map (λ x, x ^ 2) out),
        set_heap (heap w ++ [out; map (λ x, x ^ 2) out]) w).
Proof.
  intros Hp out. destruct w as [h s o]; cbn [heap] in Hp.
  unfold f, set_heap; cbn [heap tstate stdout].
  erewrite bind_ok by (apply zeros_like_run; cbn [heap]; eauto).
  unfold set_heap; cbn [heap tstate stdout length replicate].
  erewrite bind_ok by
    (eapply getitem_run; [cbn [heap]; eapply lookup_old_object, Hp | reflexivity]).
  erewrite bind_ok by
    (eapply setitem_run; [cbn [heap]; apply lookup_new_object | cbn [length]; lia]).
  unfold set_heap; cbn [heap tstate stdout]. rewrite insert_new_object; cbn [insert list_insert].
  erewrite bind_ok by
    (eapply getitem_run; [cbn [heap]; eapply lookup_old_object, Hp | reflexivity]).
  erewrite bind_ok by
    (eapply setitem_run; [cbn [heap]; apply lookup_new_object | cbn [length]; lia]).
  unfold set_heap; cbn [heap tstate stdout]. rewrite insert_new_object; cbn [insert list_insert].
  erewrite bind_ok by
    (eapply getitem_run; [cbn [heap]; eapply lookup_old_object, Hp | reflexivity]).
  erewrite bind_ok by
    (eapply setitem_run; [cbn [heap]; apply lookup_new_object | cbn [length]; lia]).
  unfold set_heap; cbn [heap tstate stdout]. rewrite insert_new_object; cbn [insert list_insert].
  erewrite bind_ok by (apply pow_run; cbn [heap]; apply lookup_new_object).
  unfold set_heap; cbn [heap tstate stdout].
  rewrite length_app; cbn [length].
  erewrite sum_run.
  2:{ cbn [heap]. replace (length h + 1)%nat with (length (h ++ [out])).
      - apply lookup_new_object.
      - rewrite length_app. reflexivity. }
  rewrite <- app_assoc. reflexivity.
Qed.

Lemma f_value (self : Net) (w : world) (x0 x1 x2 : R) :
  heap w !! pars self = Some [x0; x1; x2] →
  value_of (f self w) = Ok ((x0 - 5) ^ 2 + x1 ^ 2 + (x2 - 1) ^ 2).
Proof.
  intros Hp. rewrite (f_run _ _ _ _ _ _ Hp). cbn [value_of length replicate map foldr].
  f_equal. ring.
Qed.

(** With fewer than three elements, indexing raises. *)
Lemma f_short (self : Net) (w : world) (x : list R) :
  heap w !! pars self = Some x → (length x < 3)%nat →
  f self w = Raise IndexError.
Proof.
  intros Hp Hlen. destruct w as [h s o]; cbn [heap] in Hp. unfold f.
  erewrite bind_ok by (apply zeros_like_run; cbn [heap]; eauto).
  unfold set_heap; cbn [heap tstate stdout].
  destruct x as [|x0 [|x1 [|x2 rest]]]; cbn [length] in Hlen; try lia;
    cbn [length replicate].
  - apply bind_raise. eapply getitem_out_of_range;
      [cbn [heap]; eapply lookup_old_object, Hp | reflexivity].
  - erewrite bind_ok by
      (eapply getitem_run; [cbn [heap]; eapply lookup_old_object, Hp | reflexivity]).
    erewrite bind_ok by
      (eapply setitem_run; [cbn [heap]; apply lookup_new_object | cbn [length]; lia]).
    unfold set_heap; cbn [heap tstate stdout].
    rewrite insert_new_object; cbn [insert list_insert].
    apply bind_raise. eapply getitem_out_of_range;
      [cbn [heap]; eapply lookup_old_object, Hp | reflexivity].
  - erewrite bind_ok by
      (eapply getitem_run; [cbn [heap]; eapply lookup_old_object, Hp | reflexivity]).
    erewrite bind_ok by
      (eapply setitem_run; [cbn [heap]; apply lookup_new_object | cbn [length]; lia]).
    unfold set_heap; cbn [heap tstate stdout].
    rewrite insert_new_object; cbn [insert list_insert].
    erewrite bind_ok by
      (eapply getitem_run; [cbn [heap]; eapply lookup_old_object, Hp | reflexivity]).
    erewrite bind_ok by
      (eapply setitem_run; [cbn [heap]; apply lookup_new_object | cbn [length]; lia]).
    unfold set_heap; cbn [heap tstate stdout].
    rewrite insert_new_object; cbn [insert list_insert].
    apply bind_raise. eapply getitem_out_of_range;
      [cbn [heap]; eapply lookup_old_object, Hp | reflexivity].
Qed.

Lemma objective_value (x0 x1 x2 : R) :
  objective [x0; x1; x2] = Ok ((x0 - 5) ^ 2 + x1 ^ 2 + (x2 - 1) ^ 2).
Proof.
  unfold objective. apply (f_value {| pars := 0%nat |}). reflexivity.
Qed.

Lemma objective_at_value (x0 x1 x2 : R) :
  objective_at [x0; x1; x2] = (x0 - 5) ^ 2 + x1 ^ 2 + (x2 - 1) ^ 2.
Proof. unfold objective_at. rewrite objective_value. reflexivity. Qed.


Lemma length_3_inv {A} (x : list A) :
  length x = 3%nat → ∃ a b c, x = [a; b; c].
Proof.
  destruct x as [|a [|b [|c [|d rest]]]]; cbn; intros H; try discriminate.
  eauto.
Qed.

(** ** Convexity and the gradient *)


Lemma grad_f_value (x0 x1 x2 : R) :
  grad_f [x0; x1; x2] = [2 * (x0 - 5); 2 * x1; 2 * (x2 - 1)].
Proof. reflexivity. Qed.

Lemma length_grad_f (x : list R) : length (grad_f x) = length x.
Proof. unfold grad_f. apply length_imap. Qed.

(** A quadratic [h ↦ (h - c)^2 + k] has derivative [2 * (x - c)] at [x]. *)
Lemma derivable_pt_lim_shifted_square (F : R → R) (c k x : R) :
  (∀ h, F h = (h - c) ^ 2 + k) → derivable_pt_lim F x (2 * (x - c)).
Proof.
  intros HF eps Heps. exists (mkposreal eps Heps). intros h Hh Hlt.
  cbn [pos] in Hlt. rewrite !HF.
  replace (((x + h - c) ^ 2 + k - ((x - c) ^ 2 + k)) / h - 2 * (x - c)) with h
    by (field; exact Hh).
  exact Hlt.
Qed.

(** [grad_f] is the gradient of the objective, coordinate by coordinate. *)
Lemma grad_f_is_gradient (x0 x1 x2 : R) :
  is_gradient objective_at [x0; x1; x2] (grad_f [x0; x1; x2]).
Proof.
  split; [apply length_grad_f |].
  intros i xi gi Hx Hg. rewrite grad_f_value in Hg.
  destruct i as [|[|[|i]]]; cbn in Hx, Hg; try discriminate;
    injection Hx as <-; injection Hg as <-; cbn [insert list_insert].
  - apply (derivable_pt_lim_shifted_square _ 5 (x1 ^ 2 + (x2 - 1) ^ 2)).
    intros h. rewrite objective_at_value. ring.
  - replace (2 * x1) with (2 * (x1 - 0)) by ring.
    apply (derivable_pt_lim_shifted_square _ 0 ((x0 - 5) ^ 2 + (x2 - 1) ^ 2)).
    intros h. rewrite objective_at_value. ring.
  - apply (derivable_pt_lim_shifted_square _ 1 ((x0 - 5) ^ 2 + x1 ^ 2)).
    intros h. rewrite objective_at_value. ring.
Qed.



(** ** Purity of [Net.f], and what [forward] adds *)

Lemma extends_lookup (h h' : list (list R)) (t : loc) (v : list R) :
  extends h h' → h !! t = Some v → h' !! t = Some v.
Proof. intros [new ->] H. apply lookup_old_object, H. Qed.

(** [forward] stores a view of the parameters under [ESTIMATE] and then
    evaluates [f]: the state dictionary is the one thing it changes. *)
Lemma forward_run (self : Net) (w : world) (x0 x1 x2 : R) :
  heap w !! pars self = Some [x0; x1; x2] →
  let out := [x0 - 5; x1; x2 - 1] in
  forward self w =
    Ok (foldr Rplus 0 (map (λ x, x ^ 2) out),
        World (heap w ++ [out; map (λ x, x ^ 2) out])
              (<[ESTIMATE:=View (pars self) [3%nat; 1%nat]]> (tstate w))
              (stdout w)).
Proof.
  intros Hp out. unfold forward.
  erewrite bind_ok by (apply data_run, Hp).
  rewrite bind_run. unfold state_setitem at 1.
  rewrite (f_run self _ x0 x1 x2 []) by exact Hp. reflexivity.
Qed.

(** C9: evaluating [Net.f] on a 3-element parameter vector returns a scalar
    and leaves the parameter vector, every tensor that existed before (the
    heap only grows by the temporaries of [f]), the state dictionary and the
    output unchanged; and any evaluation on the same parameter vector, in
    whatever program state, returns the same scalar. *)
Theorem Net_f_pure (self : Net) (w : world) (x0 x1 x2 : R) :
  heap w !! pars self = Some [x0; x1; x2] →
  ∃ (v : R) (w' : world),
    f self w = Ok (v, w') ∧
    heap w' !! pars self = Some [x0; x1; x2] ∧
    extends (heap w) (heap w') ∧
    tstate w' = tstate w ∧
    stdout w' = stdout w ∧
    ∀ (self2 : Net) (w2 : world),
      heap w2 !! pars self2 = Some [x0; x1; x2] → value_of (f self2 w2) = Ok v.
Proof.
  intros Hp. do 2 eexists. split; [apply (f_run self w x0 x1 x2 []), Hp |].
  cbn [heap tstate stdout set_heap]. split; [apply lookup_old_object, Hp |].
  split; [eexists; reflexivity |]. split; [reflexivity |]. split; [reflexivity |].
  intros self2 w2 Hp2. rewrite (f_run self2 w2 x0 x1 x2 []) by exact Hp2.
  reflexivity.
Qed.

Lemma Net_f_pure_witness :
  ∃ (v : R) (w' : world),
    f {| pars := 0%nat |} (World [[2; 1; 10]] ∅ []) = Ok (v, w') ∧
    heap w' !! 0%nat = Some [2; 1; 10] ∧
    extends [[2; 1; 10]] (heap w') ∧
    tstate w' = ∅ ∧
    stdout w' = [] ∧
    ∀ (self2 : Net) (w2 : world),
      heap w2 !! pars self2 = Some [2; 1; 10] → value_of (f self2 w2) = Ok v.
Proof.
  apply (Net_f_pure {| pars := 0%nat |} (World [[2; 1; 10]] ∅ [])). reflexivity.
Defined.

(** ** The loss *)

(** C10: the loss returns its first argument, so its result does not depend
    on the label. *)
Theorem loss_is_prediction {A B : Type} (y_pred : A) (y_true y_true' : B) :
  loss y_pred y_true = y_pred ∧ loss y_pred y_true = loss y_pred y_true'.
Proof. split; reflexivity. Qed.

(** ** The import fallback *)

Section ImportFallback.

Import Imports.

Context {env : Type} (importable : env → string → bool) (pip : env → string → env).

Lemma fallback_import_ok (s : state env) :
  importable s.1 "torchbearer" = true →
  fallback importable pip s = (Ok tt, (s.1, s.2 ++ [Import "torchbearer"])).
Proof. intros H. unfold fallback, import. rewrite H. reflexivity. Qed.

Lemma fallback_import_raises (s : state env) :
  importable s.1 "torchbearer" = false →
  fallback importable pip s
  = ((if importable (pip s.1 "torchbearer") "torchbearer"
      then Ok tt else Raise ImportError),
     (pip s.1 "torchbearer",
      s.2 ++ [Import "torchbearer"; PipInstall "torchbearer"; Import "torchbearer"])).
Proof.
  destruct s as [e tr]. cbn [fst snd]. intros H.
  unfold fallback, import, pip_install. cbn [fst snd]. rewrite H.
  cbn [fst snd]. rewrite <- !app_assoc. cbn [app].
  destruct (importable (pip e "torchbearer") "torchbearer"); reflexivity.
Qed.

End ImportFallback.

(** C6: the fallback first tries [import torchbearer]. When that import
    succeeds nothing else happens: no installation, the environment is
    untouched. When it raises, and only then, the package is installed and
    imported again, and the outcome is that of the second import. *)
Theorem fallback_installs_iff_import_raises
    {env : Type} (importable : env → string → bool) (pip : env → string → env)
    (s : Imports.state env) :
  let out := Imports.fallback importable pip s in
  (∃ rest, out.2.2 = s.2 ++ Imports.Import "torchbearer" :: rest) ∧
  (Imports.PipInstall "torchbearer" ∈ drop (length s.2) out.2.2
   ↔ importable s.1 "torchbearer" = false) ∧
  (importable s.1 "torchbearer" = true →
   out = (Ok tt, (s.1, s.2 ++ [Imports.Import "torchbearer"]))) ∧
  (importable s.1 "torchbearer" = false →
   out.2.1 = pip s.1 "torchbearer" ∧
   out.2.2 = s.2 ++ [Imports.Import "torchbearer";
                     Imports.PipInstall "torchbearer";
                     Imports.Import "torchbearer"] ∧
   out.1 = if importable (pip s.1 "torchbearer") "torchbearer"
           then Ok tt else Raise ImportError).
Proof.
  intros out. subst out.
  destruct (importable s.1 "torchbearer") eqn:Himp.
  - rewrite (fallback_import_ok importable pip s Himp). cbn [fst snd].
    split; [eexists; reflexivity |]. split; [| split; [reflexivity | discriminate]].
    rewrite drop_app_length. split; [| discriminate].
    intros Hin. apply list_elem_of_singleton in Hin. discriminate.
  - rewrite (fallback_import_raises importable pip s Himp). cbn [fst snd].
    split; [eexists; reflexivity |]. split; [| split; [discriminate | auto]].
    rewrite drop_app_length. split; [reflexivity |].
    intros _. apply list_elem_of_further, list_elem_of_here.
Qed.

(** An environment where the package is missing and pip provides it. *)
Lemma fallback_installs_iff_import_raises_witness :
  Imports.fallback (λ (e : bool) _, e) (λ _ _, true) (false, [])
  = (Ok tt, (true, [Imports.Import "torchbearer";
                    Imports.PipInstall "torchbearer";
                    Imports.Import "torchbearer"])).
Proof.
  pose proof (fallback_installs_iff_import_raises
                (λ (e : bool) _, e) (λ _ _, true) (false, [])) as H.
  cbv zeta in H. destruct H as (_ & _ & _ & H).
  specialize (H eq_refl). destruct H as (H1 & H2 & H3).
  destruct (Imports.fallback _ _ _) as [r [e tr]]. cbn [fst snd] in *.
  rewrite H1, H2, H3. reflexivity.
Defined.

(** ** One training step *)

Lemma gd_update_value (rate x0 x1 x2 : R) :
  gd_update rate [x0; x1; x2]
  = [x0 - rate * (2 * (x0 - 5)); x1 - rate * (2 * x1); x2 - rate * (2 * (x2 - 1))].
Proof. reflexivity. Qed.

Lemma length_gd_update (rate : R) (x : list R) :
  length (gd_update rate x) = length x.
Proof.
  unfold gd_update. rewrite length_zip_with, length_grad_f. lia.
Qed.

Lemma SGD_update_run (rate : R) (p : loc) (v grad : list R) (w : world) :
  heap w !! p = Some v →
  SGD_update rate p grad w
  = Ok (tt, set_heap (<[p:=zip_with (λ pi gi, pi - rate * gi) v grad]> (heap w)) w).
Proof.
  intros H. unfold SGD_update.
  erewrite bind_ok by (apply data_run, H). apply (set_data_run _ v), H.
Qed.

(** The state after one step: the parameters are overwritten where they are,
    the temporaries of [f] are new objects, the state dictionary gets the
    estimate. *)
Lemma train_step_run (t : Trial) (w : world) (x0 x1 x2 : R) :
  params (optimizer t) = [pars (model t)] →
  heap w !! pars (model t) = Some [x0; x1; x2] →
  let out := [x0 - 5; x1; x2 - 1] in
  train_step t w =
    Ok (tt, World (<[pars (model t):=gd_update (lr (optimizer t)) [x0; x1; x2]]> (heap w)
                     ++ [out; map (λ x, x ^ 2) out])
                  (<[ESTIMATE:=View (pars (model t)) [3%nat; 1%nat]]> (tstate w))
                  (stdout w)).
Proof.
  intros Hparams Hp out. unfold train_step.
  erewrite bind_ok by (apply forward_run, Hp). cbv zeta.
  erewrite bind_ok by (apply data_run; cbn [heap]; apply lookup_old_object, Hp).
  rewrite Hparams. cbn [foldr].
  erewrite bind_ok by (apply SGD_update_run; cbn [heap]; apply lookup_old_object, Hp).
  unfold set_heap; cbn [heap tstate stdout].
  rewrite insert_app_l by (eapply lookup_lt_Some, Hp). reflexivity.
Qed.

(** C4: one training step, on a trial whose optimiser holds the model's
    parameter, replaces the parameter vector [x] by [x - lr * grad f(x)],
    where [grad f(x) = 2 * (x0 - 5, x1, x2 - 1)] is the gradient of the
    objective; the vector is changed in no other way. *)
Theorem train_step_gradient_descent (t : Trial) (w : world) (x0 x1 x2 : R) :
  params (optimizer t) = [pars (model t)] →
  heap w !! pars (model t) = Some [x0; x1; x2] →
  ∃ w' : world,
    train_step t w = Ok (tt, w') ∧
    heap w' !! pars (model t)
    = Some [x0 - lr (optimizer t) * (2 * (x0 - 5));
            x1 - lr (optimizer t) * (2 * x1);
            x2 - lr (optimizer t) * (2 * (x2 - 1))] ∧
    is_gradient objective_at [x0; x1; x2] [2 * (x0 - 5); 2 * x1; 2 * (x2 - 1)].
Proof.
  intros Hparams Hp. eexists. split; [apply train_step_run; eassumption |].
  split.
  - cbn [heap]. apply lookup_old_object. rewrite <- gd_update_value.
    apply list_lookup_insert_eq. eapply lookup_lt_Some, Hp.
  - rewrite <- grad_f_value. apply grad_f_is_gradient.
Qed.

Lemma train_step_gradient_descent_witness :
  ∃ w' : world,
    train_step {| model := {| pars := 0%nat |};
                  optimizer := {| params := [0%nat]; lr := 1 / 10000 |}; train_steps := 1 |}
               (World [[2; 1; 10]] ∅ []) = Ok (tt, w') ∧
    heap w' !! 0%nat
    = Some [2 - 1 / 10000 * (2 * (2 - 5));
            1 - 1 / 10000 * (2 * 1);
            10 - 1 / 10000 * (2 * (10 - 1))] ∧
    is_gradient objective_at [2; 1; 10] [2 * (2 - 5); 2 * 1; 2 * (10 - 1)].
Proof.
  apply (train_step_gradient_descent
           {| model := {| pars := 0%nat |};
              optimizer := {| params := [0%nat]; lr := 1 / 10000 |}; train_steps := 1 |}
           (World [[2; 1; 10]] ∅ [])); reflexivity.
Defined.

(** ** Iterating the update *)

(** Each coordinate's deviation from the target is scaled by [1 - 2 * rate]
    per step. *)
Lemma gd_iter_closed_form (rate x0 x1 x2 : R) (n : nat) :
  Nat.iter n (gd_update rate) [x0; x1; x2]
  = [5 + (1 - 2 * rate) ^ n * (x0 - 5);
     (1 - 2 * rate) ^ n * x1;
     1 + (1 - 2 * rate) ^ n * (x2 - 1)].
Proof.
  induction n as [|n IH].
  - cbn [Nat.iter nat_rect]. f_equal; [ring | f_equal; [ring | f_equal; ring]].
  - rewrite Nat.iter_succ, IH, gd_update_value.
    f_equal; [simpl; ring | f_equal; [simpl; ring | f_equal; simpl; ring]].
Qed.

Lemma pow_chain (a c : R) (m n : nat) :
  0 <= a → a ^ m <= c → a ^ (m * n) <= c ^ n.
Proof.
  intros Ha Hc. rewrite pow_mult. apply pow_incr. split; [apply pow_le, Ha | exact Hc].
Qed.

(** [0.9998 ^ 50000 <= 0.00005], by repeated squaring and fifth powers with
    the intermediate values rounded up. *)
Lemma decay_bound : (1 - 2 * learning_rate) ^ training_steps <= 1 / 20000.
Proof.
  unfold learning_rate, training_steps.
  replace (N.to_nat 50000) with (2 * 2 * 2 * 2 * 5 * 5 * 5 * 5 * 5)%nat by reflexivity.
  set (q := 1 - 2 * (1 / 10000)).
  assert (Hq : 0 <= q) by (unfold q; lra).
  assert (H1 : q ^ 2 <= 99960004 / 100000000) by (unfold q; lra).
  assert (H2 : q ^ (2 * 2) <= 99920024 / 100000000).
  { eapply Rle_trans; [apply pow_chain, H1; exact Hq | lra]. }
  assert (H3 : q ^ (2 * 2 * 2) <= 99840112 / 100000000).
  { eapply Rle_trans; [apply pow_chain, H2; exact Hq | lra]. }
  assert (H4 : q ^ (2 * 2 * 2 * 2) <= 99680480 / 100000000).
  { eapply Rle_trans; [apply pow_chain, H3; exact Hq | lra]. }
  assert (H5 : q ^ (2 * 2 * 2 * 2 * 5) <= 98412577 / 100000000).
  { eapply Rle_trans; [apply pow_chain, H4; exact Hq | lra]. }
  assert (H6 : q ^ (2 * 2 * 2 * 2 * 5 * 5) <= 92310908 / 100000000).
  { eapply Rle_trans; [apply pow_chain, H5; exact Hq | lra]. }
  assert (H7 : q ^ (2 * 2 * 2 * 2 * 5 * 5 * 5) <= 67029367 / 100000000).
  { eapply Rle_trans; [apply pow_chain, H6; exact Hq | lra]. }
  assert (H8 : q ^ (2 * 2 * 2 * 2 * 5 * 5 * 5 * 5) <= 13530866 / 100000000).
  { eapply Rle_trans; [apply pow_chain, H7; exact Hq | lra]. }
  eapply Rle_trans; [apply pow_chain, H8; exact Hq | lra].
Qed.

Lemma decay_nonneg : 0 <= (1 - 2 * learning_rate) ^ training_steps.
Proof. apply pow_le. unfold learning_rate. lra. Qed.

(** C5: 50,000 updates at rate 0.0001 from [(2, 1, 10)]. The deviation of
    each coordinate from the target is the initial one times [0.9998 ^ 50000],
    which is at most [1 / 20000]; so the result is within [0.00015],
    [0.00005] and [0.00045] of [5], [0] and [1], and the objective there is at
    most [10 ^ -6]. *)
Theorem gradient_descent_reaches_minimum :
  ∃ y0 y1 y2 v : R,
    Nat.iter training_steps (gd_update learning_rate) p_init = [y0; y1; y2] ∧
    y0 - 5 = (1 - 2 * learning_rate) ^ training_steps * (2 - 5) ∧
    y1 = (1 - 2 * learning_rate) ^ training_steps * 1 ∧
    y2 - 1 = (1 - 2 * learning_rate) ^ training_steps * (10 - 1) ∧
    Rabs (y0 - 5) <= 3 / 20000 ∧
    Rabs y1 <= 1 / 20000 ∧
    Rabs (y2 - 1) <= 9 / 20000 ∧
    objective [y0; y1; y2] = Ok v ∧
    0 <= v <= 1 / 1000000.
Proof.
  unfold p_init. rewrite gd_iter_closed_form.
  pose proof decay_bound as Hle. pose proof decay_nonneg as Hge.
  set (r := (1 - 2 * learning_rate) ^ training_steps) in *. clearbody r.
  do 4 eexists. split; [reflexivity |].
  split; [ring |]. split; [ring |]. split; [ring |].
  split; [apply Rabs_le; lra |]. split; [apply Rabs_le; lra |].
  split; [apply Rabs_le; lra |].
  split; [apply objective_value |].
  replace ((5 + r * (2 - 5) - 5) ^ 2 + (r * 1) ^ 2 + (1 + r * (10 - 1) - 1) ^ 2)
    with (91 * (r * r)) by ring.
  assert (r * r <= 1 / 20000 * (1 / 20000)) by (apply Rmult_le_compat; lra).
  assert (0 <= r * r) by (apply Rmult_le_pos; lra).
  lra.
Qed.

(** ** The whole run *)

Lemma length_iter_gd_update (rate : R) (n : nat) (x : list R) :
  length (Nat.iter n (gd_update rate) x) = length x.
Proof.
  induction n as [|n IH]; [reflexivity |].
  rewrite Nat.iter_succ, length_gd_update. exact IH.
Qed.

(** [n] steps from a state whose parameter vector has three elements: the
    parameter vector goes through [n] updates where it is; every other tensor
    that existed before is untouched, nothing is printed, and the state
    dictionary changes at [ESTIMATE] only. *)
Lemma run_steps_run (t : Trial) (n : nat) (w : world) (x : list R) :
  params (optimizer t) = [pars (model t)] →
  length x = 3%nat →
  heap w !! pars (model t) = Some x →
  ∃ w' : world,
    run_steps n t w = Ok (tt, w') ∧
    heap w' !! pars (model t) = Some (Nat.iter n (gd_update (lr (optimizer t))) x) ∧
    (∀ l : loc, l ≠ pars (model t) → (l < length (heap w))%nat →
                heap w' !! l = heap w !! l) ∧
    (length (heap w) ≤ length (heap w'))%nat ∧
    stdout w' = stdout w ∧
    (∀ k : string, k ≠ ESTIMATE → tstate w' !! k = tstate w !! k).
Proof.
  intros Hparams. revert w x. induction n as [|n IH]; intros w x Hlen Hp.
  - exists w. repeat split; auto.
  - destruct (length_3_inv x Hlen) as (x0 & x1 & x2 & ->).
    pose proof (train_step_run t w x0 x1 x2 Hparams Hp) as Hstep. cbv zeta in Hstep.
    assert (Hlt : (pars (model t) < length (heap w))%nat) by (eapply lookup_lt_Some, Hp).
    match type of Hstep with _ = Ok (tt, ?w0) => set (w1 := w0) in * end.
    destruct (IH w1 (gd_update (lr (optimizer t)) [x0; x1; x2])) as (w' & Hrun & Hp' & Hfr & Hlen' & Hout & Hst).
    { rewrite length_gd_update. reflexivity. }
    { unfold w1; cbn [heap]. apply lookup_old_object, list_lookup_insert_eq, Hlt. }
    exists w'. split.
    { cbn [run_steps]. erewrite bind_ok by exact Hstep. exact Hrun. }
    split; [rewrite Nat.iter_succ_r; exact Hp' |].
    assert (Hlen1 : length (heap w1) = (length (heap w) + 2)%nat).
    { unfold w1; cbn [heap]. rewrite length_app, length_insert. reflexivity. }
    split.
    { intros l Hne Hl. rewrite Hfr by lia. unfold w1; cbn [heap].
      rewrite lookup_app_l by (rewrite length_insert; lia).
      apply list_lookup_insert_ne. congruence. }
    split; [lia |]. split; [rewrite Hout; reflexivity |].
    intros k Hk. rewrite Hst by exact Hk. unfold w1; cbn [tstate].
    apply lookup_insert_ne. congruence.
Qed.

Lemma notebook_run :
  ∃ w : world,
    notebook empty_world = Ok (tt, w) ∧
    heap w !! 0%nat = Some (Nat.iter training_steps (gd_update learning_rate) p_init) ∧
    stdout w = [Nat.iter training_steps (gd_update learning_rate) p_init].
Proof.
  unfold notebook.
  erewrite bind_ok by reflexivity. erewrite bind_ok by reflexivity.
  cbv zeta. cbn [parameters pars lookup list_lookup length heap empty_world].
  set (t := for_train_steps _ _).
  destruct (run_steps_run t training_steps (set_heap ([] ++ [p_init]) empty_world) p_init)
    as (w' & Hrun & Hp' & _ & _ & Hout & _); try reflexivity.
  erewrite bind_ok by exact Hrun.
  cbn [model t for_train_steps pars optimizer lr] in Hp'.
  unfold print. erewrite bind_ok by (apply data_run, Hp').
  eexists. split; [reflexivity |]. unfold write_stdout, set_stdout in *.
  cbn [heap stdout]. split; [exact Hp' |]. rewrite Hout. reflexivity.
Qed.

(** C7: running the notebook from an empty program state prints exactly one
    value, and it is the parameter vector (the tensor at location 0, the
    first object the notebook creates) as it stands after all 50,000 updates
    from [(2, 1, 10)] at rate 0.0001. *)
Theorem notebook_prints_final_parameters :
  ∃ w : world,
    notebook empty_world = Ok (tt, w) ∧
    stdout w = [Nat.iter training_steps (gd_update learning_rate) p_init] ∧
    heap w !! 0%nat = Some (Nat.iter training_steps (gd_update learning_rate) p_init) ∧
    N.of_nat training_steps = 50000%N.
Proof.
  destruct notebook_run as (w & Hrun & Hp & Hout).
  exists w. split; [exact Hrun |]. split; [exact Hout |]. split; [exact Hp |].
  reflexivity.
Qed.

(** ** The parameter vector as program state *)

(** A forward pass on the initial parameters leaves them as they are and
    binds [ESTIMATE] in a state dictionary that did not have it: the
    parameter vector is not the only state the computation mutates. *)
Lemma forward_changes_state_dictionary :
  ∃ (v : R) (w' : world),
    forward {| pars := 0%nat |} (World [[2; 1; 10]] ∅ []) = Ok (v, w') ∧
    heap w' !! 0%nat = Some [2; 1; 10] ∧
    (∅ : gmap string view) !! ESTIMATE = None ∧
    tstate w' !! ESTIMATE = Some (View 0%nat [3%nat; 1%nat]).
Proof.
  do 2 eexists. split; [apply (forward_run _ _ 2 1 10); reflexivity |].
  cbn [heap tstate]. split; [reflexivity |]. split; [apply lookup_empty |].
  apply lookup_insert_eq.
Qed.

(** C8, amended: the parameter vector is created holding [(2, 1, 10)]; from
    any state where it has three elements, [n] training steps succeed and
    leave, at the same location, the vector after [n] updates, which has
    three elements. The steps change no other tensor that existed before,
    print nothing, and in the state dictionary change the entry [ESTIMATE]
    only. *)
Theorem parameter_vector_invariant :
  (p ← torch.tensor p_init; Net_init p) empty_world
  = Ok ({| pars := 0%nat |}, World [[2; 1; 10]] ∅ []) ∧
  ∀ (t : Trial) (n : nat) (w : world) (x : list R),
    params (optimizer t) = [pars (model t)] →
    length x = 3%nat →
    heap w !! pars (model t) = Some x →
    ∃ (w' : world) (x' : list R),
      run_steps n t w = Ok (tt, w') ∧
      heap w' !! pars (model t) = Some x' ∧
      x' = Nat.iter n (gd_update (lr (optimizer t))) x ∧
      length x' = 3%nat ∧
      (∀ l : loc, l ≠ pars (model t) → (l < length (heap w))%nat →
                  heap w' !! l = heap w !! l) ∧
      stdout w' = stdout w ∧
      (∀ k : string, k ≠ ESTIMATE → tstate w' !! k = tstate w !! k).
Proof.
  split; [reflexivity |].
  intros t n w x Hparams Hlen Hp.
  destruct (run_steps_run t n w x Hparams Hlen Hp)
    as (w' & Hrun & Hp' & Hfr & _ & Hout & Hst).
  exists w', (Nat.iter n (gd_update (lr (optimizer t))) x).
  split; [exact Hrun |]. split; [exact Hp' |]. split; [reflexivity |].
  split; [rewrite length_iter_gd_update; exact Hlen |].
  split; [exact Hfr |]. split; [exact Hout | exact Hst].
Qed.

Lemma parameter_vector_invariant_witness :
  ∃ (w' : world) (x' : list R),
    run_steps 2 {| model := {| pars := 0%nat |};
                   optimizer := {| params := [0%nat]; lr := learning_rate |}; train_steps := 2 |}
              (World [[2; 1; 10]] ∅ []) = Ok (tt, w') ∧
    heap w' !! 0%nat = Some x' ∧
    x' = Nat.iter 2 (gd_update learning_rate) [2; 1; 10] ∧
    length x' = 3%nat ∧
    (∀ l : loc, l ≠ 0%nat → (l < 1)%nat → heap w' !! l = [[2; 1; 10]] !! l) ∧
    stdout w' = [] ∧
    (∀ k : string, k ≠ ESTIMATE → tstate w' !! k = (∅ : gmap string view) !! k).
Proof.
  apply (proj2 parameter_vector_invariant
           {| model := {| pars := 0%nat |};
              optimizer := {| params := [0%nat]; lr := learning_rate |}; train_steps := 2 |}
           2%nat (World [[2; 1; 10]] ∅ []) [2; 1; 10]); reflexivity.
Defined.

(** * Further properties of the notebook's code *)

(** ** [Net.f] on parameter vectors of any length *)

Lemma length_ge_3_inv {A} (x : list A) :
  (3 ≤ length x)%nat → ∃ a b c rest, x = a :: b :: c :: rest.
Proof.
  destruct x as [|a [|b [|c rest]]]; cbn; intros H; try lia. eauto.
Qed.

(** [Net.f] indexes positions 0, 1 and 2 and nothing else: it returns a value
    exactly when the parameter vector has at least three elements, and raises
    [IndexError] on a shorter one. *)
Theorem Net_f_defined_iff_three_elements (self : Net) (w : world) (x : list R) :
  heap w !! pars self = Some x →
  ((∃ (v : R) (w' : world), f self w = Ok (v, w')) ↔ (3 ≤ length x)%nat) ∧
  ((length x < 3)%nat → f self w = Raise IndexError).
Proof.
  intros Hp. split; [split |].
  - intros (v & w' & Hrun). destruct (decide (3 ≤ length x)%nat) as [|Hshort]; [assumption |].
    rewrite (f_short self w x Hp) in Hrun by lia. discriminate.
  - intros Hlen. destruct (length_ge_3_inv x Hlen) as (x0 & x1 & x2 & rest & ->).
    do 2 eexists. apply (f_run self w x0 x1 x2 rest Hp).
  - apply f_short, Hp.
Qed.

Lemma Net_f_defined_iff_three_elements_witness :
  ((∃ (v : R) (w' : world),
      f {| pars := 0%nat |} (World [[2; 1]] ∅ []) = Ok (v, w')) ↔ (3 ≤ 2)%nat) ∧
  ((2 < 3)%nat → f {| pars := 0%nat |} (World [[2; 1]] ∅ []) = Raise IndexError).
Proof.
  apply (Net_f_defined_iff_three_elements {| pars := 0%nat |} (World [[2; 1]] ∅ []) [2; 1]).
  reflexivity.
Defined.

(** ** [Net.forward] *)

(** [f] does not read the state dictionary. *)
Lemma f_value_state_irrelevant (self : Net) (w : world) (s : gmap string view) (x : list R) :
  heap w !! pars self = Some x →
  value_of (f self (set_tstate s w)) = value_of (f self w).
Proof.
  intros Hp. destruct (decide (3 ≤ length x)%nat) as [Hlen | Hshort].
  - destruct (length_ge_3_inv x Hlen) as (x0 & x1 & x2 & rest & ->).
    rewrite (f_run self w x0 x1 x2 rest Hp).
    rewrite (f_run self (set_tstate s w) x0 x1 x2 rest) by exact Hp. reflexivity.
  - rewrite (f_short self w x Hp) by lia.
    rewrite (f_short self (set_tstate s w) x) by (exact Hp || lia). reflexivity.
Qed.

Lemma forward_unfold (self : Net) (w : world) (x : list R) :
  heap w !! pars self = Some x →
  forward self w
  = f self (set_tstate (<[ESTIMATE:=View (pars self) [length x; 1%nat]]> (tstate w)) w).
Proof.
  intros Hp. unfold forward. erewrite bind_ok by (apply data_run, Hp).
  rewrite bind_run. reflexivity.
Qed.

(** [forward] returns what [f] returns in the same state, value or
    exception, whatever the length of the parameter vector. *)
Theorem forward_returns_f (self : Net) (w : world) (x : list R) :
  heap w !! pars self = Some x →
  value_of (forward self w) = value_of (f self w).
Proof.
  intros Hp. rewrite (forward_unfold self w x Hp).
  apply (f_value_state_irrelevant self w _ x Hp).
Qed.

Lemma forward_returns_f_witness :
  value_of (forward {| pars := 0%nat |} (World [[2; 1]] ∅ []))
  = value_of (f {| pars := 0%nat |} (World [[2; 1]] ∅ [])).
Proof.
  apply (forward_returns_f {| pars := 0%nat |} (World [[2; 1]] ∅ []) [2; 1]).
  reflexivity.
Defined.

(** A successful [forward] overwrites [state[ESTIMATE]], whatever it held,
    with a view of shape (n, 1) on the storage of the parameters themselves
    (no copy); it leaves the other keys, the parameters and every tensor
    that existed before as they were, and prints nothing. *)
Theorem forward_records_estimate (self : Net) (w : world) (x : list R) :
  heap w !! pars self = Some x →
  (3 ≤ length x)%nat →
  ∃ (v : R) (w' : world),
    forward self w = Ok (v, w') ∧
    tstate w' !! ESTIMATE = Some (View (pars self) [length x; 1%nat]) ∧
    (∀ k : string, k ≠ ESTIMATE → tstate w' !! k = tstate w !! k) ∧
    heap w' !! pars self = Some x ∧
    extends (heap w) (heap w') ∧
    stdout w' = stdout w.
Proof.
  intros Hp Hlen. rewrite (forward_unfold self w x Hp).
  destruct (length_ge_3_inv x Hlen) as (x0 & x1 & x2 & rest & Hx).
  rewrite Hx in Hp. do 2 eexists.
  split; [apply (f_run self _ x0 x1 x2 rest), Hp |].
  cbn [heap tstate stdout set_heap set_tstate].
  split; [rewrite Hx; apply lookup_insert_eq |].
  split; [intros k Hk; apply lookup_insert_ne; congruence |].
  split; [rewrite Hx; apply lookup_old_object, Hp |].
  split; [eexists; reflexivity | reflexivity].
Qed.

Lemma forward_records_estimate_witness :
  let w0 := World [[2; 1; 10]] {[ ESTIMATE := View 7%nat [] ]} [] in
  ∃ (v : R) (w' : world),
    forward {| pars := 0%nat |} w0 = Ok (v, w') ∧
    tstate w' !! ESTIMATE = Some (View 0%nat [3%nat; 1%nat]) ∧
    (∀ k : string, k ≠ ESTIMATE → tstate w' !! k = tstate w0 !! k) ∧
    heap w' !! 0%nat = Some [2; 1; 10] ∧
    extends (heap w0) (heap w') ∧
    stdout w' = stdout w0.
Proof.
  intros w0. apply (forward_records_estimate {| pars := 0%nat |} w0 [2; 1; 10]).
  - reflexivity.
  - cbn [length]. lia.
Defined.

(** Two forward passes in a row, with no update in between, return the same
    value, and the second leaves the state dictionary as the first made it. *)
Theorem forward_twice (self : Net) (w : world) (x : list R) :
  heap w !! pars self = Some x →
  (3 ≤ length x)%nat →
  ∃ (v : R) (w1 w2 : world),
    forward self w = Ok (v, w1) ∧
    forward self w1 = Ok (v, w2) ∧
    tstate w2 = tstate w1.
Proof.
  intros Hp Hlen.
  destruct (length_ge_3_inv x Hlen) as (x0 & x1 & x2 & rest & ->).
  rewrite (forward_unfold self w _ Hp).
  rewrite (f_run self _ x0 x1 x2 rest) by exact Hp.
  do 3 eexists. split; [reflexivity |].
  set (w1 := set_heap _ _).
  assert (Hp1 : heap w1 !! pars self = Some (x0 :: x1 :: x2 :: rest)).
  { unfold w1. cbn [heap set_heap set_tstate]. apply lookup_old_object, Hp. }
  rewrite (forward_unfold self w1 _ Hp1).
  rewrite (f_run self _ x0 x1 x2 rest) by exact Hp1.
  split; [reflexivity |].
  unfold w1. cbn [heap tstate stdout set_heap set_tstate].
  apply insert_insert_eq.
Qed.

Lemma forward_twice_witness :
  ∃ (v : R) (w1 w2 : world),
    forward {| pars := 0%nat |} (World [[2; 1; 10]] ∅ []) = Ok (v, w1) ∧
    forward {| pars := 0%nat |} w1 = Ok (v, w2) ∧
    tstate w2 = tstate w1.
Proof.
  apply (forward_twice {| pars := 0%nat |} (World [[2; 1; 10]] ∅ []) [2; 1; 10]).
  - reflexivity.
  - cbn [length]. lia.
Defined.

(** ** The import cell as a whole *)

(** The fallback succeeds exactly when [torchbearer] can be imported in the
    environment it leaves behind. *)
Theorem fallback_ok_iff_importable
    {env : Type} (importable : env → string → bool) (pip : env → string → env)
    (s : Imports.state env) :
  (Imports.fallback importable pip s).1 = Ok tt
  ↔ importable (Imports.fallback importable pip s).2.1 "torchbearer" = true.
Proof.
  destruct (importable s.1 "torchbearer") eqn:Himp.
  - rewrite (fallback_import_ok importable pip s Himp). cbn [fst snd].
    split; [intros _; exact Himp | reflexivity].
  - rewrite (fallback_import_raises importable pip s Himp). cbn [fst snd].
    destruct (importable (pip s.1 "torchbearer") "torchbearer");
      split; (reflexivity || discriminate).
Qed.

Lemma cell_unfold_torch_raises
    {env : Type} (importable : env → string → bool) (pip : env → string → env)
    (s : Imports.state env) :
  importable s.1 "torch" = false →
  Imports.cell importable pip s
  = (Raise ImportError, (s.1, s.2 ++ [Imports.Import "torch"])).
Proof. intros H. unfold Imports.cell, Imports.import. rewrite H. reflexivity. Qed.

Lemma cell_unfold_torch_nn_raises
    {env : Type} (importable : env → string → bool) (pip : env → string → env)
    (s : Imports.state env) :
  importable s.1 "torch" = true → importable s.1 "torch.nn" = false →
  Imports.cell importable pip s
  = (Raise ImportError,
     (s.1, s.2 ++ [Imports.Import "torch"; Imports.Import "torch.nn"])).
Proof.
  intros H1 H2. unfold Imports.cell, Imports.import. rewrite H1. cbn [fst snd].
  rewrite H2, <- app_assoc. reflexivity.
Qed.

Lemma cell_unfold_fallback
    {env : Type} (importable : env → string → bool) (pip : env → string → env)
    (s : Imports.state env) :
  importable s.1 "torch" = true → importable s.1 "torch.nn" = true →
  Imports.cell importable pip s
  = Imports.fallback importable pip
      (s.1, s.2 ++ [Imports.Import "torch"; Imports.Import "torch.nn"]).
Proof.
  intros H1 H2. unfold Imports.cell, Imports.import at 1 2. rewrite H1. cbn [fst snd].
  rewrite H2, <- app_assoc. reflexivity.
Qed.

(** The import cell: [import torch] and [from torch.nn import Module] are not
    guarded, so when either raises the cell stops there, before the fallback,
    and nothing is installed. The cell succeeds exactly when both succeed and
    [torchbearer] can be imported at once or after the installation; and
    [pip install] runs exactly when both succeed and the first import of
    [torchbearer] raises. *)
Theorem cell_outcome
    {env : Type} (importable : env → string → bool) (pip : env → string → env)
    (s : Imports.state env) :
  let out := Imports.cell importable pip s in
  (out.1 = Ok tt
   ↔ importable s.1 "torch" = true ∧ importable s.1 "torch.nn" = true ∧
     (importable s.1 "torchbearer" = true
      ∨ importable (pip s.1 "torchbearer") "torchbearer" = true)) ∧
  (Imports.PipInstall "torchbearer" ∈ drop (length s.2) out.2.2
   ↔ importable s.1 "torch" = true ∧ importable s.1 "torch.nn" = true ∧
     importable s.1 "torchbearer" = false) ∧
  (importable s.1 "torch" = false →
   out = (Raise ImportError, (s.1, s.2 ++ [Imports.Import "torch"]))) ∧
  (importable s.1 "torch" = true → importable s.1 "torch.nn" = false →
   out = (Raise ImportError,
          (s.1, s.2 ++ [Imports.Import "torch"; Imports.Import "torch.nn"]))).
Proof.
  intros out. subst out.
  destruct (importable s.1 "torch") eqn:H1.
  2:{ rewrite (cell_unfold_torch_raises importable pip s H1). cbn [fst snd].
      rewrite drop_app_length.
      split; [split; [discriminate | intros (? & _); discriminate] |].
      split; [| split; [reflexivity | discriminate]].
      split; [| intros (? & _); discriminate].
      intros Hin. apply list_elem_of_singleton in Hin. discriminate. }
  destruct (importable s.1 "torch.nn") eqn:H2.
  2:{ rewrite (cell_unfold_torch_nn_raises importable pip s H1 H2). cbn [fst snd].
      rewrite drop_app_length.
      split; [split; [discriminate | intros (_ & ? & _); discriminate] |].
      split; [| split; [discriminate | reflexivity]].
      split; [| intros (_ & ? & _); discriminate].
      intros Hin. apply elem_of_cons in Hin as [? | Hin]; [discriminate |].
      apply list_elem_of_singleton in Hin. discriminate. }
  rewrite (cell_unfold_fallback importable pip s H1 H2).
  set (s2 := (s.1, s.2 ++ [Imports.Import "torch"; Imports.Import "torch.nn"])).
  destruct (importable s.1 "torchbearer") eqn:H3.
  - rewrite (fallback_import_ok importable pip s2 H3). unfold s2. cbn [fst snd].
    rewrite <- app_assoc, drop_app_length.
    split; [split; [intros _; auto | reflexivity] |].
    split; [| split; discriminate].
    split; [| intros (_ & _ & ?); discriminate].
    intros Hin. repeat (apply elem_of_cons in Hin as [? | Hin]; [discriminate |]).
    apply elem_of_nil in Hin. contradiction.
  - rewrite (fallback_import_raises importable pip s2 H3). unfold s2. cbn [fst snd].
    rewrite <- app_assoc, drop_app_length.
    split.
    { destruct (importable (pip s.1 "torchbearer") "torchbearer").
      - split; [intros _; auto | reflexivity].
      - split; [discriminate | intros (_ & _ & [? | ?]); discriminate]. }
    split; [| split; discriminate].
    split; [intros _; auto |].
    intros _. cbn [app]. do 3 apply list_elem_of_further. apply list_elem_of_here.
Qed.

(** An environment with PyTorch but without torchbearer, where pip works. *)
Lemma cell_outcome_witness :
  Imports.cell (λ (e : bool) pkg, if decide (pkg = "torchbearer") then e else true)
               (λ _ _, true) (false, [])
  = (Ok tt, (true, [Imports.Import "torch"; Imports.Import "torch.nn";
                    Imports.Import "torchbearer";
                    Imports.PipInstall "torchbearer";
                    Imports.Import "torchbearer"])) ∧
  Imports.cell (λ (_ : bool) _, false) (λ _ _, true) (false, [])
  = (Raise ImportError, (false, [Imports.Import "torch"])).
Proof.
  split; [reflexivity |].
  apply (proj1 (proj2 (proj2 (cell_outcome (λ (_ : bool) _, false) (λ _ _, true)
                                           (false, []))))).
  reflexivity.
Defined.

(** * The values of [Net.f] in binary32 arithmetic *)

(** ** Rounding to binary32

    Facts about the Standard Library's specification of rounding, at the
    precision and exponent range of binary32. *)

Section Rounding.

Local Open Scope Z_scope.

Lemma digits2_pos_bounds (m : positive) :
  2 ^ (Z.pos (digits2_pos m) - 1) ≤ Z.pos m < 2 ^ Z.pos (digits2_pos m).
Proof.
  induction m as [m IH | m IH |]; cbn [digits2_pos].
  - rewrite Pos2Z.inj_succ, Z.pow_succ_r by lia.
    replace (Z.succ (Z.pos (digits2_pos m)) - 1) with (Z.succ (Z.pos (digits2_pos m) - 1)) by lia.
    rewrite Z.pow_succ_r by lia. lia.
  - rewrite Pos2Z.inj_succ, Z.pow_succ_r by lia.
    replace (Z.succ (Z.pos (digits2_pos m)) - 1) with (Z.succ (Z.pos (digits2_pos m) - 1)) by lia.
    rewrite Z.pow_succ_r by lia. lia.
  - cbn. lia.
Qed.

Lemma digits2_pos_ge (m : positive) (k : Z) :
  0 ≤ k → 2 ^ k ≤ Z.pos m → k + 1 ≤ Z.pos (digits2_pos m).
Proof.
  intros Hk Hle. pose proof (digits2_pos_bounds m) as [_ Hlt].
  assert (2 ^ k < 2 ^ Z.pos (digits2_pos m)) by lia.
  apply Z.pow_lt_mono_r_iff in H; lia.
Qed.

Lemma shr_1_m (mrs : shr_record) :
  0 ≤ shr_m mrs → shr_m (shr_1 mrs) = shr_m mrs / 2.
Proof.
  destruct mrs as [m r s]. cbn [shr_m]. intros Hm.
  destruct m as [|[p|p|]|p]; cbn [shr_1 shr_m]; try lia.
  - reflexivity.
  - rewrite Pos2Z.inj_xI. apply Z.div_unique with 1; lia.
  - rewrite Pos2Z.inj_xO. apply Z.div_unique with 0; lia.
  - reflexivity.
Qed.

Lemma iter_shr_1_m (n : positive) (mrs : shr_record) :
  0 ≤ shr_m mrs → shr_m (SpecFloat.iter_pos shr_1 n mrs) = shr_m mrs / 2 ^ Z.pos n.
Proof.
  revert mrs. induction n as [n IH | n IH |]; intros mrs Hm; cbn [SpecFloat.iter_pos].
  - assert (H1 : 0 ≤ shr_m (shr_1 mrs)) by (rewrite shr_1_m by lia; apply Z.div_pos; lia).
    assert (H2 : 0 ≤ shr_m (SpecFloat.iter_pos shr_1 n (shr_1 mrs))).
    { rewrite IH by lia. apply Z.div_pos; [lia | apply Z.pow_pos_nonneg; lia]. }
    rewrite IH, IH, shr_1_m by lia.
    rewrite !Z.div_div by (try apply Z.pow_pos_nonneg; lia).
    f_equal. rewrite Pos2Z.inj_xI, <- Z.pow_add_r, <- Z.pow_succ_r by lia. f_equal. lia.
  - assert (H2 : 0 ≤ shr_m (SpecFloat.iter_pos shr_1 n mrs)).
    { rewrite IH by lia. apply Z.div_pos; [lia | apply Z.pow_pos_nonneg; lia]. }
    rewrite IH, IH by lia.
    rewrite !Z.div_div by (try apply Z.pow_pos_nonneg; lia).
    f_equal. rewrite Pos2Z.inj_xO, <- Z.pow_add_r by lia. f_equal. lia.
  - rewrite shr_1_m by lia. reflexivity.
Qed.

Lemma round_nearest_even_bounds (m : Z) (l : location) :
  m ≤ round_nearest_even m l ≤ m + 1.
Proof. destruct l as [|[]]; cbn; try destruct (Z.even m); lia. Qed.


Lemma pow2_div_lower (a i j : Z) :
  0 ≤ j ≤ i → 2 ^ i ≤ a → 2 ^ (i - j) ≤ a / 2 ^ j.
Proof.
  intros Hij Ha. apply Z.div_le_lower_bound; [apply Z.pow_pos_nonneg; lia |].
  rewrite <- Z.pow_add_r by lia. replace (j + (i - j)) with i by lia. exact Ha.
Qed.

Lemma fexp_32 (x : Z) : fexp F32.prec F32.emax x = Z.max (x - 24) (-149).
Proof. reflexivity. Qed.

Lemma shr_m_of_loc (m : Z) (l : location) : shr_m (shr_record_of_loc m l) = m.
Proof. destruct l as [|[]]; reflexivity. Qed.

Lemma shr_fexp_spec (m e : Z) (l : location) :
  0 ≤ m →
  let n := fexp F32.prec F32.emax (Zdigits2 m + e) - e in
  shr_m (shr_fexp F32.prec F32.emax m e l).1 = m / 2 ^ Z.max n 0 ∧
  (shr_fexp F32.prec F32.emax m e l).2 = e + Z.max n 0 ∧
  (n ≤ 0 → (shr_fexp F32.prec F32.emax m e l).1 = shr_record_of_loc m l).
Proof.
  intros Hm n. unfold shr_fexp, shr. fold n.
  destruct n as [|p|p] eqn:Hn; cbn [fst snd].
  - rewrite shr_m_of_loc, Z.max_id, Z.pow_0_r, Z.div_1_r. repeat split; lia.
  - rewrite iter_shr_1_m by (rewrite shr_m_of_loc; lia).
    rewrite shr_m_of_loc, Z.max_l by lia. repeat split; lia.
  - rewrite shr_m_of_loc, Z.max_r, Z.pow_0_r, Z.div_1_r by lia. repeat split; lia.
Qed.

Lemma binary_round_aux_rounded (s : bool) (m : positive) (e : Z) :
  rounded s (Z.pos (digits2_pos m) + e)
          (binary_round_aux F32.prec F32.emax s (Z.pos m) e loc_Exact).
Proof.
  unfold binary_round_aux.
  pose proof (shr_fexp_spec (Z.pos m) e loc_Exact ltac:(lia)) as (Hm1 & He1 & Hex1).
  cbv zeta in Hm1, He1, Hex1. cbn [Zdigits2] in Hm1, He1, Hex1. rewrite fexp_32 in Hm1, He1, Hex1.
  destruct (shr_fexp F32.prec F32.emax (Z.pos m) e loc_Exact) as [mrs' e'].
  cbn [fst snd] in Hm1, He1, Hex1.
  set (d := Z.pos (digits2_pos m)) in *.
  set (n := Z.max (d + e - 24) (-149) - e) in *.
  set (k := Z.max n 0) in *.
  pose proof (digits2_pos_bounds m) as [Hlo Hhi]. fold d in Hlo, Hhi.
  assert (Hq : 0 ≤ shr_m mrs').
  { rewrite Hm1. apply Z.div_pos; [lia | apply Z.pow_pos_nonneg; lia]. }
  pose proof (round_nearest_even_bounds (shr_m mrs') (loc_of_shr_record mrs')) as Hrne.
  set (m1 := round_nearest_even (shr_m mrs') (loc_of_shr_record mrs')) in *.
  pose proof (shr_fexp_spec m1 e' loc_Exact ltac:(lia)) as (Hm2 & He2 & _).
  cbv zeta in Hm2, He2. rewrite fexp_32 in Hm2, He2.
  destruct (shr_fexp F32.prec F32.emax m1 e' loc_Exact) as [mrs'' e''].
  cbn [fst snd] in Hm2, He2.
  set (n2 := Z.max (Zdigits2 m1 + e' - 24) (-149) - e') in *.
  set (k2 := Z.max n2 0) in *.
  assert (Hemin : -149 ≤ e'') by lia.
  assert (Hnn : 0 ≤ shr_m mrs'').
  { rewrite Hm2. apply Z.div_pos; [lia | apply Z.pow_pos_nonneg; lia]. }
  (* the case of a magnitude above emin *)
  assert (Hbig : -149 < d + e →
                 ∃ p, shr_m mrs'' = Z.pos p ∧ d + e ≤ Z.pos (digits2_pos p) + e'').
  { intros HD.
    assert (Hk : 0 ≤ k ≤ d - 1) by lia.
    assert (Hq1 : 2 ^ (d - 1 - k) ≤ shr_m mrs') by (rewrite Hm1; apply pow2_div_lower; lia).
    assert (Hpos1 : 0 < 2 ^ (d - 1 - k)) by (apply Z.pow_pos_nonneg; lia).
    destruct m1 as [|p1|p1] eqn:Hm1eq; try lia.
    assert (Hd1 : d - k ≤ Z.pos (digits2_pos p1)).
    { pose proof (digits2_pos_ge p1 (d - 1 - k)). lia. }
    cbn [Zdigits2] in n2. set (d1 := Z.pos (digits2_pos p1)) in *.
    assert (Hk2 : 0 ≤ k2 ≤ d1 - 1) by lia.
    pose proof (digits2_pos_bounds p1) as [Hlo1 _]. fold d1 in Hlo1.
    assert (Hq2 : 2 ^ (d1 - 1 - k2) ≤ shr_m mrs'') by (rewrite Hm2; apply pow2_div_lower; lia).
    assert (Hpos2 : 0 < 2 ^ (d1 - 1 - k2)) by (apply Z.pow_pos_nonneg; lia).
    destruct (shr_m mrs'') as [|p2|p2]; try lia.
    exists p2. split; [reflexivity |].
    pose proof (digits2_pos_ge p2 (d1 - 1 - k2)). lia. }
  destruct (shr_m mrs'') as [|p2|p2] eqn:Hres; cbn [rounded].
  - split; [reflexivity |].
    destruct (Z_lt_le_dec (-149) (d + e)) as [HD | HD]; [| lia].
    destruct (Hbig HD) as (p & Hp & _). discriminate.
  - destruct (e'' <=? F32.emax - F32.prec); cbn [rounded]; [| reflexivity].
    split; [reflexivity |]. split; [lia |].
    destruct (Z_lt_le_dec (-149) (d + e)) as [HD | HD].
    + destruct (Hbig HD) as (p & Hp & Hmag). injection Hp as <-. exact Hmag.
    + pose proof (Pos2Z.is_pos (digits2_pos p2)). lia.
  - lia.
Qed.


Lemma rounded_weaken (s : bool) (D D' : Z) (r : spec_float) :
  D' ≤ D → rounded s D r → rounded s D' r.
Proof. destruct r; cbn [rounded]; intros; intuition lia. Qed.

Lemma pos_iter_xO (m d : positive) :
  Z.pos (Pos.iter xO m d) = Z.pos m * 2 ^ Z.pos d ∧
  Z.pos (digits2_pos (Pos.iter xO m d)) = Z.pos (digits2_pos m) + Z.pos d.
Proof.
  induction d as [|d [IH1 IH2]] using Pos.peano_ind.
  - cbn [Pos.iter digits2_pos]. rewrite Pos2Z.inj_succ. split; lia.
  - rewrite Pos.iter_succ. cbn [digits2_pos].
    rewrite Pos2Z.inj_xO, IH1, !Pos2Z.inj_succ, IH2, Z.pow_succ_r by lia. split; lia.
Qed.

Lemma shl_align_spec (m : positive) (e e' : Z) :
  Z.pos (digits2_pos (shl_align m e e').1) + (shl_align m e e').2
  = Z.pos (digits2_pos m) + e ∧
  (e' ≤ e → Z.pos (shl_align m e e').1 = Z.pos m * 2 ^ (e - e')).
Proof.
  unfold shl_align. destruct (e' - e) as [|p|p] eqn:Hd; cbn [fst snd].
  - split; [reflexivity |]. intros _. replace (e - e') with 0 by lia. lia.
  - split; [reflexivity |]. lia.
  - destruct (pos_iter_xO m p) as [H1 H2]. rewrite H1, H2. split; [lia |].
    intros _. replace (e - e') with (Z.pos p) by lia. reflexivity.
Qed.

Lemma binary_round_rounded (s : bool) (m : positive) (e : Z) :
  rounded s (Z.pos (digits2_pos m) + e) (binary_round F32.prec F32.emax s m e).
Proof.
  unfold binary_round.
  pose proof (shl_align_spec m e (fexp F32.prec F32.emax (Z.pos (digits2_pos m) + e)))
    as [Hd _].
  destruct (shl_align m e _) as [mz ez]. cbn [fst snd] in Hd. rewrite <- Hd.
  apply binary_round_aux_rounded.
Qed.

(** Validity of a finite binary32 value, unfolded. *)
Lemma bounded_32 (m : positive) (e : Z) :
  bounded F32.prec F32.emax m e = true →
  Z.max (Z.pos (digits2_pos m) + e - 24) (-149) = e ∧ e ≤ 104.
Proof.
  unfold bounded, canonical_mantissa. rewrite fexp_32. intros H.
  apply andb_prop in H as [H1 H2].
  apply Z.eqb_eq in H1. apply Z.leb_le in H2. split; [exact H1 |].
  change (F32.emax - F32.prec) with 104 in H2. exact H2.
Qed.

(** Subtracting a normal constant [c], not too small, from a different valid
    value never cancels to nothing: the difference keeps a magnitude above
    [-73], so that its square cannot underflow. *)
Lemma sub_finite_const (s : bool) (m : positive) (e : Z) (mc : positive) (ec : Z) :
  bounded F32.prec F32.emax m e = true →
  Z.pos (digits2_pos mc) = 24 → -73 ≤ ec →
  S754_finite s m e ≠ S754_finite false mc ec →
  ∃ s', rounded s' (-73) (F32.sub (S754_finite s m e) (S754_finite false mc ec)).
Proof.
  intros Hb Hdc Hec Hne. apply bounded_32 in Hb as [Hcan He].
  pose proof (digits2_pos_bounds m) as [Hlo Hhi].
  pose proof (digits2_pos_bounds mc) as [Hloc Hhic]. rewrite Hdc in Hloc, Hhic.
  set (d := Z.pos (digits2_pos m)) in *.
  assert (Hd24 : d ≤ 24) by lia.
  assert (Hm24 : Z.pos m < 2 ^ 24).
  { eapply Z.lt_le_trans; [exact Hhi |]. apply Z.pow_le_mono_r; lia. }
  unfold F32.sub, SFsub. set (ez := Z.min e ec).
  assert (Hezdef : ez = Z.min e ec) by reflexivity. clearbody ez.
  destruct (shl_align_spec m e ez) as [_ HX]. specialize (HX ltac:(lia)).
  destruct (shl_align_spec mc ec ez) as [_ HC]. specialize (HC ltac:(lia)).
  rewrite HX, HC. cbn [cond_Zopp].
  set (X := Z.pos m * 2 ^ (e - ez)). set (C := Z.pos mc * 2 ^ (ec - ez)).
  assert (HXpos : 0 < X) by (apply Z.mul_pos_pos; [lia | apply Z.pow_pos_nonneg; lia]).
  assert (HCpos : 0 < C) by (apply Z.mul_pos_pos; [lia | apply Z.pow_pos_nonneg; lia]).
  (* a lower bound on the size of the integer difference *)
  assert (Hmag : ∀ p, Z.pos p = Z.abs (cond_Zopp s X - C) → -73 ≤ Z.pos (digits2_pos p) + ez).
  { intros p Hp. pose proof (Pos2Z.is_pos (digits2_pos p)).
    destruct (Z_le_gt_dec (-74) ez) as [Hez | Hez]; [lia |].
    assert (Hez' : ez = e) by lia.
    assert (HX' : X = Z.pos m) by (unfold X; rewrite Hez', Z.sub_diag; lia).
    assert (HC' : 2 ^ (23 + (ec - e)) ≤ C).
    { unfold C. rewrite Hez', Z.pow_add_r by lia. apply Z.mul_le_mono_nonneg_r; [| lia].
      apply Z.pow_nonneg. lia. }
    assert (Hsplit : 2 ^ (23 + (ec - e)) = 2 * 2 ^ (22 + (ec - e))).
    { rewrite <- Z.pow_succ_r by lia. f_equal. lia. }
    assert (H24 : 2 ^ 24 ≤ 2 ^ (22 + (ec - e))) by (apply Z.pow_le_mono_r; lia).
    assert (Hp' : 2 ^ (22 + (ec - e)) ≤ Z.pos p) by (destruct s; cbn [cond_Zopp] in Hp; lia).
    pose proof (digits2_pos_ge p (22 + (ec - e)) ltac:(lia) Hp'). lia. }
  assert (Hnz : cond_Zopp s X - C ≠ 0).
  { intros H0. apply Hne.
    destruct s; cbn [cond_Zopp] in H0; [lia |].
    destruct (Z_lt_le_dec e ec) as [Hlt | Hge].
    - assert (Hez' : ez = e) by lia.
      assert (X = Z.pos m) by (unfold X; rewrite Hez', Z.sub_diag; lia).
      assert (2 ^ 23 * 2 ^ 1 ≤ C).
      { unfold C. rewrite Hez'. apply Z.mul_le_mono_nonneg; try lia. apply Z.pow_le_mono_r; lia. }
      lia.
    - assert (Hez' : ez = ec) by lia.
      assert (C = Z.pos mc) by (unfold C; rewrite Hez', Z.sub_diag; lia).
      assert (d = 24) by lia.
      assert (Hlo' : 2 ^ 23 ≤ Z.pos m) by (replace 23 with (d - 1) by lia; exact Hlo).
      destruct (Z.eq_dec e ec) as [-> | Hneq].
      + assert (X = Z.pos m) by (unfold X; rewrite Hez', Z.sub_diag; lia).
        f_equal. lia.
      + assert (2 ^ 23 * 2 ^ 1 ≤ X).
        { unfold X. rewrite Hez'. apply Z.mul_le_mono_nonneg; try lia. apply Z.pow_le_mono_r; lia. }
        lia. }
  unfold binary_normalize.
  destruct (cond_Zopp s X - C) as [|p|p] eqn:HA; [lia | |].
  - exists false. eapply rounded_weaken; [| apply binary_round_rounded].
    apply Hmag. lia.
  - exists true. eapply rounded_weaken; [| apply binary_round_rounded].
    apply Hmag. lia.
Qed.


Lemma rounded_false_nonneg (D : Z) (r : spec_float) :
  rounded false D r → r = F32.zero ∨ positive_value r.
Proof.
  destruct r as [s | s | | s m e]; cbn [rounded]; unfold positive_value; cbn [rounded].
  - intros [-> _]. left. reflexivity.
  - intros ->. right. reflexivity.
  - intros [].
  - intros (-> & He & _). right. pose proof (Pos2Z.is_pos (digits2_pos m)).
    repeat split; lia.
Qed.

Lemma mul_self_nonneg (x : spec_float) : nonneg_or_nan (F32.mul x x).
Proof.
  unfold nonneg_or_nan.
  destruct x as [s | s | | s m e]; unfold F32.mul; cbn [SFmul].
  - right. left. rewrite xorb_nilpotent. reflexivity.
  - right. right. rewrite xorb_nilpotent. reflexivity.
  - left. reflexivity.
  - right. rewrite xorb_nilpotent.
    eapply rounded_false_nonneg, (binary_round_aux_rounded false (m * m) (e + e)).
Qed.

(** The square of a value of magnitude above [-73] does not underflow. *)
Lemma mul_self_positive (s : bool) (d : spec_float) :
  rounded s (-73) d → positive_value (F32.mul d d).
Proof.
  destruct d as [s' | s' | | s' m e]; cbn [rounded]; unfold F32.mul; cbn [SFmul].
  - lia.
  - intros _. rewrite xorb_nilpotent. reflexivity.
  - intros [].
  - intros (_ & He & Hmag). rewrite xorb_nilpotent.
    eapply rounded_weaken; [| apply (binary_round_aux_rounded false (m * m) (e + e))].
    pose proof (digits2_pos_bounds m) as [Hlo _].
    set (d := Z.pos (digits2_pos m)) in *.
    assert (Hd : 1 ≤ d) by (pose proof (Pos2Z.is_pos (digits2_pos m)); lia).
    assert (Hsq : 2 ^ (d - 1 + (d - 1)) ≤ Z.pos (m * m)).
    { rewrite Z.pow_add_r, Pos2Z.inj_mul by lia.
      assert (0 < 2 ^ (d - 1)) by (apply Z.pow_pos_nonneg; lia).
      apply Z.mul_le_mono_nonneg; lia. }
    pose proof (digits2_pos_ge (m * m) (d - 1 + (d - 1)) ltac:(lia) Hsq). lia.
Qed.

Lemma positive_value_not_zero (r : spec_float) : positive_value r → r ≠ F32.zero.
Proof. intros H ->. cbn in H. lia. Qed.

Lemma positive_value_not_nan (r : spec_float) : positive_value r → r ≠ S754_nan.
Proof. intros H ->. exact H. Qed.

(** Adding values that are not negative gives one that is not negative, and
    gives zero only from two zeros: there is nothing to cancel. *)
Lemma add_nonneg (a b : spec_float) :
  nonneg_or_nan a → nonneg_or_nan b →
  nonneg_or_nan (F32.add a b) ∧
  (F32.add a b = F32.zero → a = F32.zero ∧ b = F32.zero).
Proof.
  unfold nonneg_or_nan, positive_value, F32.zero, F32.add.
  intros [-> | [-> | Ha]] [-> | [-> | Hb]]; cbn [SFadd];
    try (split; [auto | discriminate || auto]; fail).
  - destruct b as [sb | sb | | sb mb eb]; cbn [rounded] in Hb; try lia; try contradiction.
    + subst sb. cbn [SFadd]. split; [right; right; reflexivity | discriminate].
    + destruct Hb as (-> & Hb). cbn [SFadd].
      split; [right; right; cbn [rounded]; auto | discriminate].
  - destruct a as [sa | sa | | sa ma ea]; cbn [rounded] in Ha; try lia; try contradiction;
      cbn [SFadd]; split; auto; discriminate.
  - destruct a as [sa | sa | | sa ma ea]; cbn [rounded] in Ha; try lia; try contradiction.
    + subst sa. cbn [SFadd]. split; [right; right; reflexivity | discriminate].
    + destruct Ha as (-> & Ha). cbn [SFadd].
      split; [right; right; cbn [rounded]; auto | discriminate].
  - destruct a as [sa | sa | | sa ma ea]; cbn [rounded] in Ha; try lia; try contradiction;
      destruct b as [sb | sb | | sb mb eb]; cbn [rounded] in Hb; try lia; try contradiction.
    + subst sa sb. cbn [SFadd]. split; [right; right; reflexivity | discriminate].
    + subst sa. destruct Hb as (-> & Hb). cbn [SFadd].
      split; [right; right; reflexivity | discriminate].
    + subst sb. destruct Ha as (-> & Ha). cbn [SFadd].
      split; [right; right; reflexivity | discriminate].
    + destruct Ha as (-> & Ha & _), Hb as (-> & Hb & _). cbn [SFadd cond_Zopp].
      set (pa := (shl_align ma ea (Z.min ea eb)).1).
      set (pb := (shl_align mb eb (Z.min ea eb)).1).
      change (Z.pos pa + Z.pos pb) with (Z.pos (pa + pb)). cbn [binary_normalize].
      pose proof (binary_round_rounded false (pa + pb) (Z.min ea eb)) as Hr.
      pose proof (Pos2Z.is_pos (digits2_pos (pa + pb))).
      assert (Hr' : rounded false (-148) (binary_round F32.prec F32.emax false (pa + pb) (Z.min ea eb))).
      { eapply rounded_weaken; [| exact Hr]. lia. }
      split; [right; right; exact Hr' |].
      intros H0. rewrite H0 in Hr'. cbn in Hr'. lia.
Qed.

Lemma add_zero_r (a : spec_float) : nonneg_or_nan a → F32.add a F32.zero = a.
Proof.
  unfold nonneg_or_nan, positive_value, F32.zero, F32.add.
  intros [-> | [-> | Ha]]; try reflexivity.
  destruct a as [sa | sa | | sa ma ea]; cbn [rounded] in Ha; try lia; try contradiction;
    reflexivity.
Qed.

Lemma nonneg_not_below_zero (v : spec_float) :
  nonneg_or_nan v →
  v = F32.zero ∨ v = S754_nan ∨ SFltb F32.zero v = true.
Proof.
  unfold nonneg_or_nan, positive_value. intros [-> | [-> | H]]; auto.
  destruct v as [s | s | | s m e]; cbn [rounded] in H; try lia; try contradiction.
  - subst s. right. right. reflexivity.
  - destruct H as (-> & _). right. right. reflexivity.
Qed.

End Rounding.

(** ** [Net.f] on binary32 tensors *)

(** The value of [F32.f]: three differences (the middle one with nothing
    subtracted), their squares, and the sum from the left, each operation
    rounded. Elements past the third only add zeros. *)
Lemma F32_f_run (x0 x1 x2 : spec_float) (rest : list spec_float) :
  F32.f (x0 :: x1 :: x2 :: rest)
  = Ok (fold_left F32.add (replicate (length rest) F32.zero)
          (F32.add
             (F32.add
                (F32.add F32.zero
                   (F32.mul (F32.sub x0 (F32.of_Z 5)) (F32.sub x0 (F32.of_Z 5))))
                (F32.mul x1 x1))
             (F32.mul (F32.sub x2 (F32.of_Z 1)) (F32.sub x2 (F32.of_Z 1))))).
Proof.
  unfold F32.f, F32.zeros_like, F32.getitem, F32.setitem.
  cbn [length replicate lookup list_lookup mbind result_bind].
  rewrite decide_True by (cbn [length]; lia). cbn [mbind result_bind insert list_insert].
  rewrite decide_True by (cbn [length]; lia). cbn [mbind result_bind insert list_insert].
  rewrite decide_True by (cbn [length]; lia). cbn [mbind result_bind insert list_insert].
  unfold F32.sum, F32.pow. cbn [map fold_left F32.pow_float]. f_equal.
  f_equal. clear. induction (length rest) as [|n IH]; [reflexivity |].
  cbn [replicate map]. rewrite IH. reflexivity.
Qed.

Lemma F32_f_value (x0 x1 x2 : spec_float) :
  F32.f [x0; x1; x2]
  = Ok (F32.add
          (F32.add
             (F32.add F32.zero
                (F32.mul (F32.sub x0 (F32.of_Z 5)) (F32.sub x0 (F32.of_Z 5))))
             (F32.mul x1 x1))
          (F32.mul (F32.sub x2 (F32.of_Z 1)) (F32.sub x2 (F32.of_Z 1)))).
Proof. rewrite F32_f_run. reflexivity. Qed.

(** ** Exact values *)

Lemma to_Z_to_R (x : spec_float) (z : Z) :
  F32.to_Z x = Some z → F32.to_R x = Some (IZR z).
Proof.
  destruct x as [s | s | | s m e]; cbn [F32.to_Z F32.to_R]; try discriminate.
  - intros [= <-]. reflexivity.
  - destruct (0 <=? e)%Z eqn:He; [intros [= <-]; reflexivity |].
    destruct (_ mod _ =? 0)%Z eqn:Hmod; [| discriminate]. intros [= <-].
    apply Z.leb_gt in He. apply Z.eqb_eq in Hmod.
    assert (Hpow : (0 < 2 ^ (- e))%Z) by (apply Z.pow_pos_nonneg; lia).
    apply Z.div_exact in Hmod; [| lia].
    set (zz := cond_Zopp s (Z.pos m)) in *. f_equal.
    rewrite Hmod at 1. rewrite mult_IZR. field.
    apply not_0_IZR. lia.
Qed.

Lemma grid_In (n a : Z) : (0 ≤ n)%Z → (- n ≤ a ≤ n)%Z → In a (F32.grid n).
Proof.
  intros Hn Ha. unfold F32.grid. apply in_map_iff.
  exists (Z.to_nat (a + n)). split; [lia |]. apply in_seq. lia.
Qed.

Lemma exact_on_grid_spec (n a b c : Z) :
  F32.exact_on_grid n = true →
  (0 ≤ n)%Z → (- n ≤ a ≤ n)%Z → (- n ≤ b ≤ n)%Z → (- n ≤ c ≤ n)%Z →
  F32.exact_at a b c = true.
Proof.
  unfold F32.exact_on_grid. intros H Hn Ha Hb Hc.
  rewrite forallb_forall in H. specialize (H a (grid_In n a Hn Ha)).
  rewrite forallb_forall in H. specialize (H b (grid_In n b Hn Hb)).
  rewrite forallb_forall in H. exact (H c (grid_In n c Hn Hc)).
Qed.

Lemma exact_on_grid_16 : F32.exact_on_grid 16 = true.
Proof. vm_compute. reflexivity. Qed.

Lemma exact_at_spec (a b c : Z) :
  F32.exact_at a b c = true →
  F32.to_R (F32.of_Z a) = Some (IZR a) ∧
  F32.to_R (F32.of_Z b) = Some (IZR b) ∧
  F32.to_R (F32.of_Z c) = Some (IZR c) ∧
  ∃ v : spec_float,
    F32.f [F32.of_Z a; F32.of_Z b; F32.of_Z c] = Ok v ∧
    F32.to_R v = Some ((IZR a - 5) ^ 2 + IZR b ^ 2 + (IZR c - 1) ^ 2).
Proof.
  unfold F32.exact_at. destruct (F32.f _) as [v | e]; [| discriminate].
  intros H. repeat (apply andb_prop in H as [H ?]).
  repeat match goal with
         | H : bool_decide _ = true |- _ => apply bool_decide_eq_true in H
         end.
  repeat split; try (apply to_Z_to_R; assumption).
  exists v. split; [reflexivity |].
  erewrite to_Z_to_R by eassumption. f_equal.
  rewrite !plus_IZR. change 2%Z with (Z.of_nat 2). rewrite <- !pow_IZR, !minus_IZR.
  reflexivity.
Qed.

(** C1, amended: on a 3-element binary32 parameter vector, [Net.f] returns
    the binary32 evaluation of [(x0-5)^2 + x1^2 + (x2-1)^2]: the two
    differences, the three squares and the two sums (from the left, starting
    at [+0]) are each rounded to the nearest binary32 value. Where no step
    rounds, this is the exact sum of squares: so at every integer vector with
    entries from -16 to 16, whose entries are themselves binary32 values. *)
Theorem Net_f_float32_value :
  (∀ x0 x1 x2 : spec_float,
     F32.f [x0; x1; x2]
     = Ok (F32.add
             (F32.add
                (F32.add F32.zero
                   (F32.mul (F32.sub x0 (F32.of_Z 5)) (F32.sub x0 (F32.of_Z 5))))
                (F32.mul x1 x1))
             (F32.mul (F32.sub x2 (F32.of_Z 1)) (F32.sub x2 (F32.of_Z 1))))) ∧
  (∀ a b c : Z,
     (-16 ≤ a ≤ 16)%Z → (-16 ≤ b ≤ 16)%Z → (-16 ≤ c ≤ 16)%Z →
     F32.to_R (F32.of_Z a) = Some (IZR a) ∧
     F32.to_R (F32.of_Z b) = Some (IZR b) ∧
     F32.to_R (F32.of_Z c) = Some (IZR c) ∧
     ∃ v : spec_float,
       F32.f [F32.of_Z a; F32.of_Z b; F32.of_Z c] = Ok v ∧
       F32.to_R v = Some ((IZR a - 5) ^ 2 + IZR b ^ 2 + (IZR c - 1) ^ 2)).
Proof.
  split; [apply F32_f_value |].
  intros a b c Ha Hb Hc. apply exact_at_spec.
  apply (exact_on_grid_spec 16 a b c exact_on_grid_16); lia.
Qed.

(** The notebook's initial guess [(2, 1, 10)]. *)
Lemma Net_f_float32_value_witness :
  F32.to_R (F32.of_Z 2) = Some (IZR 2) ∧
  F32.to_R (F32.of_Z 1) = Some (IZR 1) ∧
  F32.to_R (F32.of_Z 10) = Some (IZR 10) ∧
  ∃ v : spec_float,
    F32.f [F32.of_Z 2; F32.of_Z 1; F32.of_Z 10] = Ok v ∧
    F32.to_R v = Some ((IZR 2 - 5) ^ 2 + IZR 1 ^ 2 + (IZR 10 - 1) ^ 2).
Proof. apply (proj2 Net_f_float32_value 2%Z 1%Z 10%Z); lia. Defined.

(** At [(16777216, 0, 1)], all three binary32 values, the square of the
    first difference, [16777211^2 = 281474808938521], is not a binary32
    value: [Net.f] returns its rounding, [281474808938496]. *)
Lemma Net_f_float32_rounds :
  ∃ (v : spec_float) (r : R),
    F32.to_R (F32.of_Z 16777216) = Some 16777216 ∧
    F32.to_R F32.zero = Some 0 ∧
    F32.to_R (F32.of_Z 1) = Some 1 ∧
    F32.f [F32.of_Z 16777216; F32.zero; F32.of_Z 1] = Ok v ∧
    F32.to_R v = Some r ∧
    r ≠ (16777216 - 5) ^ 2 + 0 ^ 2 + (1 - 1) ^ 2.
Proof.
  exists (S754_finite false 16777206 24), (IZR 281474808938496).
  split; [apply (to_Z_to_R _ 16777216); reflexivity |].
  split; [reflexivity |].
  split; [apply (to_Z_to_R _ 1); reflexivity |].
  split; [vm_compute; reflexivity |].
  split; [apply (to_Z_to_R _ 281474808938496); reflexivity |].
  lra.
Qed.

(** ** The minimum in binary32 *)

Lemma spec_float_eq_dec (x y : spec_float) : {x = y} + {x ≠ y}.
Proof.
  decide equality; (apply Bool.bool_dec || apply Pos.eq_dec || apply Z.eq_dec).
Qed.

(** The square of the difference to a normal constant is zero only at that
    constant: the difference of two distinct values is far from underflow. *)
Lemma square_of_difference_nonzero (x : spec_float) (mc : positive) (ec : Z) :
  F32.valid x →
  Z.pos (digits2_pos mc) = 24%Z → (-73 ≤ ec)%Z →
  x ≠ S754_finite false mc ec →
  F32.mul (F32.sub x (S754_finite false mc ec)) (F32.sub x (S754_finite false mc ec))
  ≠ F32.zero.
Proof.
  intros Hv Hd Hec Hne. destruct x as [s | s | | s m e].
  - apply positive_value_not_zero, (mul_self_positive true).
    cbn. repeat split; lia.
  - cbn. discriminate.
  - cbn. discriminate.
  - destruct (sub_finite_const s m e mc ec Hv Hd Hec Hne) as [s' Hr].
    eapply positive_value_not_zero, mul_self_positive, Hr.
Qed.

(** C2, amended: in binary32 the objective is [+0] at [(5, 0, 1)] and nowhere
    negative: at every vector of valid values it is [+0], NaN, or greater than
    zero (possibly [+inf]). It is [+0] exactly at the vectors [(5, x1, 1)]
    whose [x1 * x1] rounds to [+0]; everywhere else it is positive or NaN. So
    [(5, 0, 1)] is a global minimiser, but it is not the only one. *)
Theorem objective_float32_minimum :
  F32.f [F32.of_Z 5; F32.zero; F32.of_Z 1] = Ok F32.zero ∧
  ∀ x0 x1 x2 : spec_float,
    F32.valid x0 → F32.valid x2 →
    ∃ v : spec_float,
      F32.f [x0; x1; x2] = Ok v ∧
      (v = F32.zero ∨ v = S754_nan ∨ SFltb F32.zero v = true) ∧
      (v = F32.zero
       ↔ x0 = F32.of_Z 5 ∧ x2 = F32.of_Z 1 ∧ F32.mul x1 x1 = F32.zero).
Proof.
  split; [vm_compute; reflexivity |].
  intros x0 x1 x2 Hv0 Hv2. eexists. split; [apply F32_f_value |].
  set (a := F32.mul (F32.sub x0 (F32.of_Z 5)) (F32.sub x0 (F32.of_Z 5))).
  set (b := F32.mul x1 x1).
  set (c := F32.mul (F32.sub x2 (F32.of_Z 1)) (F32.sub x2 (F32.of_Z 1))).
  assert (Hz : nonneg_or_nan F32.zero) by (right; left; reflexivity).
  destruct (add_nonneg F32.zero a Hz (mul_self_nonneg _)) as [H1 Hz1].
  destruct (add_nonneg _ b H1 (mul_self_nonneg _)) as [H2 Hz2].
  destruct (add_nonneg _ c H2 (mul_self_nonneg _)) as [H3 Hz3].
  split; [apply nonneg_not_below_zero, H3 |]. split.
  - intros Hzero. destruct (Hz3 Hzero) as [Hab Hc].
    destruct (Hz2 Hab) as [Ha Hb]. destruct (Hz1 Ha) as [_ Ha'].
    split; [| split; [| exact Hb]].
    + destruct (spec_float_eq_dec x0 (F32.of_Z 5)) as [| Hne]; [assumption |].
      exfalso. revert Ha'. unfold a.
      apply (square_of_difference_nonzero x0 10485760 (-21) Hv0); [reflexivity | lia |].
      exact Hne.
    + destruct (spec_float_eq_dec x2 (F32.of_Z 1)) as [| Hne]; [assumption |].
      exfalso. revert Hc. unfold c.
      apply (square_of_difference_nonzero x2 8388608 (-23) Hv2); [reflexivity | lia |].
      exact Hne.
  - intros (-> & -> & Hb). unfold a, c. fold b. rewrite Hb. vm_compute. reflexivity.
Qed.

Lemma objective_float32_minimum_witness :
  ∃ v : spec_float,
    F32.f [F32.of_Z 2; F32.of_Z 1; F32.of_Z 10] = Ok v ∧
    (v = F32.zero ∨ v = S754_nan ∨ SFltb F32.zero v = true) ∧
    (v = F32.zero
     ↔ F32.of_Z 2 = F32.of_Z 5 ∧ F32.of_Z 10 = F32.of_Z 1
       ∧ F32.mul (F32.of_Z 1) (F32.of_Z 1) = F32.zero).
Proof.
  apply (proj2 objective_float32_minimum (F32.of_Z 2) (F32.of_Z 1) (F32.of_Z 10));
    reflexivity.
Defined.

(** [2^-100] is a valid binary32 value, not zero; its square, [2^-200], is
    below half the smallest positive binary32 value and rounds to [+0]: the
    objective is [+0] at [(5, 2^-100, 1)] as well. *)
Lemma objective_float32_zero_off_the_minimum :
  ∃ r : R,
    F32.valid (S754_finite false 8388608 (-123)) ∧
    F32.to_R (S754_finite false 8388608 (-123)) = Some r ∧ 0 < r ∧
    F32.f [F32.of_Z 5; S754_finite false 8388608 (-123); F32.of_Z 1] = Ok F32.zero ∧
    [F32.of_Z 5; S754_finite false 8388608 (-123); F32.of_Z 1]
    ≠ [F32.of_Z 5; F32.zero; F32.of_Z 1].
Proof.
  eexists. split; [reflexivity |]. split; [reflexivity |].
  split.
  - cbn [Z.leb Z.compare cond_Zopp]. apply Rdiv_lt_0_compat; apply IZR_lt; [lia |].
    apply Z.pow_pos_nonneg; lia.
  - split; [vm_compute; reflexivity | discriminate].
Qed.

(** ** Convexity *)






(** ** Elements past the third, in binary32 *)

Lemma fold_add_zeros (n : nat) (acc : spec_float) :
  nonneg_or_nan acc → fold_left F32.add (replicate n F32.zero) acc = acc.
Proof.
  intros Hacc. induction n as [|n IH]; [reflexivity |].
  cbn [replicate fold_left]. rewrite add_zero_r by exact Hacc. exact IH.
Qed.

(** Elements of the parameter vector past the third do not enter the value
    [Net.f] returns: [out] is [+0] there, and adding the squares of these
    zeros at the end of the sum changes nothing. *)
Theorem Net_f_float32_ignores_further_elements
    (x0 x1 x2 : spec_float) (rest : list spec_float) :
  F32.f (x0 :: x1 :: x2 :: rest) = F32.f [x0; x1; x2].
Proof.
  rewrite F32_f_run, F32_f_value. f_equal. apply fold_add_zeros.
  assert (Hz : nonneg_or_nan F32.zero) by (right; left; reflexivity).
  destruct (add_nonneg F32.zero _ Hz (mul_self_nonneg (F32.sub x0 (F32.of_Z 5)))) as [H1 _].
  destruct (add_nonneg _ _ H1 (mul_self_nonneg x1)) as [H2 _].
  destruct (add_nonneg _ _ H2 (mul_self_nonneg (F32.sub x2 (F32.of_Z 1)))) as [H3 _].
  exact H3.
Qed.
